(** * log4go: a shallow embedding of the leveled logger

    Source: [vendor/github.com/JFrogDev/log4go/log4go.go].

    The Go code is sequential inside one call, mutates the filter map of a
    [*Logger] in place, and talks to the outside through sinks ([LogWriter]),
    closures, [fmt], [runtime.Caller] and [time.Now].  The embedding keeps
    that shape:

    - the logger is a record with its two fields (the filter map and the
      read/write mutex);
    - every method is a computation in a small state monad over a [World]
      that holds the logger, the chronological trace of calls made to
      caller-supplied code (sinks, closures, formatting of caller-supplied
      arguments, clock reads) and the state of the map-iteration randomiser;
    - what the Go runtime and the standard library decide (formatting,
      stack inspection, the clock, the order of a [range] over a map) is a
      [Runtime] instance, so every general statement holds for all of them;
      [go_runtime] is a concrete instance used to evaluate the code. *)

From Stdlib Require Import ZArith Ascii String.
From stdpp Require Import base option list gmap strings pretty.
From Stdlib Require HexString.

Local Open Scope string_scope.
Local Open Scope list_scope.
Local Open Scope Z_scope.

(** ** Levels (lines 68-92) *)

(** [type Level int]: levels are machine integers; no arithmetic is done on
    them, only comparisons, so they are modelled as [Z]. *)
Abbreviation Level := Z.

Definition FINEST : Level := 0.
Definition FINE : Level := 1.
Definition DEBUG : Level := 2.
Definition TRACE : Level := 3.
Definition INFO : Level := 4.
Definition WARNING : Level := 5.
Definition ERROR : Level := 6.
Definition CRITICAL : Level := 7.

Definition levelStrings : list string :=
  ["FNST"; "FINE"; "DEBG"; "TRAC"; "INFO"; "WARN"; "EROR"; "CRIT"].

(** A Go expression either yields a value or panics at run time. *)
Inductive result (A : Type) : Type :=
| Returns (a : A)
| Panics (reason : string).
Arguments Returns {A} a.
Arguments Panics {A} reason.

(** [xs[i]] on an array, with Go's bounds check. *)
Definition index {A : Type} (xs : list A) (i : Z) : result A :=
  if (i <? 0) || (Z.of_nat (length xs) <=? i)
  then Panics "index out of range"
  else match xs !! Z.to_nat i with
       | Some x => Returns x
       | None => Panics "index out of range"
       end.

(** [func (l Level) String() string] *)
Definition Level_String (l : Level) : result string :=
  if (l <? 0) || (Z.of_nat (length levelStrings) <? l)
  then Returns "UNKNOWN"
  else index levelStrings l.

(** ** Values of type [interface{}] *)

(** A [func() string] value: its code address (what [%v] prints) and the
    string it returns when called.  Calls are recorded in the trace. *)
Record closure : Type := { closure_pc : N; closure_returns : string }.

(** The dynamic values the logging methods are given: the two types the type
    switches single out ([string], [func() string]) and three others. *)
Inductive value : Type :=
| VString (s : string)
| VFunc (c : closure)
| VInt (n : Z)
| VBool (b : bool)
| VError (text : string).   (* the result of errors.New(text) *)

(** [errors.New]: an error value is its text. *)
Record error : Type := errors_New { error_text : string }.

(** [strings.Repeat(s, count)], for the non-negative counts [len] yields. *)
Fixpoint strings_Repeat (s : string) (count : nat) : string :=
  match count with
  | O => ""
  | S n => s +:+ strings_Repeat s n
  end.

(** ** A fragment of package [fmt]

    The documented behaviour of [fmt.Sprintf] and [fmt.Sprint] on the values
    above, for format strings in which every ['%'] is followed by a verb
    letter, by ['%'], or ends the string (no flags, width, precision or
    argument index).  Only the verbs [v], [s] and [d] are known; any other
    letter is reported as a bad verb. *)

Definition typeName (a : value) : string :=
  match a with
  | VString _ => "string"
  | VFunc _ => "func() string"
  | VInt _ => "int"
  | VBool _ => "bool"
  | VError _ => "*errors.errorString"
  end.

(** The [%v] rendering. *)
Definition fmt_v (a : value) : string :=
  match a with
  | VString s => s
  | VFunc c => HexString.of_N (closure_pc c)
  | VInt n => pretty n
  | VBool b => if b then "true" else "false"
  | VError text => text
  end.

Definition verb_string (verb : ascii) : string := String verb "".

(** [%!verb(type=value)] *)
Definition badVerb (verb : ascii) (a : value) : string :=
  "%!" +:+ verb_string verb +:+ "(" +:+ typeName a +:+ "=" +:+ fmt_v a +:+ ")".

Definition printArg (a : value) (verb : ascii) : string :=
  if decide (verb = "v"%char) then fmt_v a
  else if decide (verb = "s"%char) then
    match a with
    | VString s => s
    | VError text => text
    | _ => badVerb verb a
    end
  else if decide (verb = "d"%char) then
    match a with
    | VInt n => pretty n
    | VFunc c => pretty (Z.of_N (closure_pc c))
    | VError text => "&{" +:+ badVerb verb (VString text) +:+ "}"
    | _ => badVerb verb a
    end
  else
    match a with
    | VError text => "&{" +:+ badVerb verb (VString text) +:+ "}"
    | _ => badVerb verb a
    end.

(** [type=value, type=value, ...] *)
Fixpoint extra_list (a : list value) : string :=
  match a with
  | [] => ""
  | [x] => typeName x +:+ "=" +:+ fmt_v x
  | x :: rest => typeName x +:+ "=" +:+ fmt_v x +:+ ", " +:+ extra_list rest
  end.

(** Arguments left over when the format is exhausted. *)
Definition extra (a : list value) : string :=
  match a with
  | [] => ""
  | _ => "%!(EXTRA " +:+ extra_list a +:+ ")"
  end.

Fixpoint doPrintf (format : string) (a : list value) : string :=
  match format with
  | EmptyString => extra a
  | String c rest =>
      if decide (c = "%"%char) then
        match rest with
        | EmptyString => "%!(NOVERB)" +:+ extra a
        | String verb rest' =>
            if decide (verb = "%"%char) then "%" +:+ doPrintf rest' a
            else match a with
                 | [] => "%!" +:+ verb_string verb +:+ "(MISSING)" +:+ doPrintf rest' []
                 | arg :: a' => printArg arg verb +:+ doPrintf rest' a'
                 end
        end
      else String c (doPrintf rest a)
  end.

Definition isString (a : value) : bool :=
  match a with VString _ => true | _ => false end.

(** [fmt.Sprint]: operands in their [%v] rendering, with a space between two
    operands when neither is a string. *)
Fixpoint doPrint (prevString : bool) (a : list value) : string :=
  match a with
  | [] => ""
  | arg :: rest =>
      (if negb (isString arg) && negb prevString then " " else "")
        +:+ fmt_v arg +:+ doPrint (isString arg) rest
  end.

Definition go_Sprint (a : list value) : string :=
  match a with
  | [] => ""
  | arg :: rest => fmt_v arg +:+ doPrint (isString arg) rest
  end.


Definition go_Sprintf (format : string) (a : list value) : string :=
  doPrintf format a.

(** ** Records, sinks, filters (lines 101-139) *)

Record LogRecord : Type := {
  rec_Level : Level;      (* Level *)
  rec_Created : Z;        (* Created, as a clock reading *)
  rec_Source : string;    (* Source *)
  rec_Message : string    (* Message *)
}.

(** A [LogWriter] is an interface value owned by the caller; the logger only
    ever calls its two methods, so a sink is a handle and the calls made on
    it are events of the trace.  Sinks are taken to be non-nil and their
    methods to return to the caller without touching the logger. *)
Abbreviation LogWriter := N.

(** [type Filter struct { Level Level; LogWriter }] *)
Record Filter : Type := {
  filt_Level : Level;
  filt_LogWriter : LogWriter
}.

(** [type Filters map[string]*Filter].  Filters are never mutated after they
    are built, so the pointers are modelled by the values they point to. *)
Abbreviation Filters := (gmap string Filter).

(** [sync.RWMutex], as far as a single thread can see it. *)
Record RWMutex : Type := { readers : nat; writer : bool }.

Definition unlocked : RWMutex := {| readers := 0; writer := false |}.

(** [type Logger struct { Filters; sync.RWMutex }] *)
Record Logger : Type := {
  log_Filters : Filters;
  log_RWMutex : RWMutex
}.

(** ** The world around one logger *)

Inductive event : Type :=
| EvSprintf (format : string) (a : list value)  (* fmt.Sprintf(format, a...) on the caller's arguments *)
| EvSprint (a : list value)                     (* fmt.Sprint(a...) on the caller's arguments *)
| EvCall (c : closure)                          (* a func() string is called *)
| EvNow                                         (* time.Now() is read: a record is being made *)
| EvLogWrite (filt : Filter) (rec : LogRecord)  (* filt.LogWrite(rec), on the sink of filt *)
| EvClose (filt : Filter).                      (* filt.Close(), on the sink of filt *)

Record World : Type := {
  w_log : Logger;          (* the logger the methods are called on *)
  w_trace : list event;    (* what has been called so far, oldest first *)
  w_iter : nat             (* how many map iterations have been started *)
}.

(** What the Go runtime and standard library contribute.  [range_order n m]
    is the order in which the [n]-th [range] statement of the run visits the
    map [m]: Go leaves it unspecified, so it is any enumeration of [m]. *)
Class Runtime : Type := {
  fmt_Sprintf : string -> list value -> string;
  fmt_Sprint : list value -> string;
  runtime_Caller : nat -> option (N * Z);   (* pc and line, when ok *)
  runtime_FuncName : N -> string;           (* runtime.FuncForPC(pc).Name() *)
  time_Now : nat -> Z;                      (* the clock, along the trace *)
  range_order : nat -> Filters -> list (string * Filter);
  range_order_perm : forall n m, range_order n m ≡ₚ map_to_list m
}.

(** ** The monad: state, blocking, fatal errors *)

Inductive outcome (A : Type) : Type :=
| Done (a : A) (w : World)     (* the call returns *)
| Blocked                      (* the call waits for a lock forever *)
| Fatal (reason : string).     (* the runtime aborts the program *)
Arguments Done {A} a w.
Arguments Blocked {A}.
Arguments Fatal {A} reason.

Definition M (A : Type) : Type := World -> outcome A.

Definition ret {A : Type} (a : A) : M A := fun w => Done a w.

Definition bind {A B : Type} (c : M A) (k : A -> M B) : M B :=
  fun w => match c w with
           | Done a w' => k a w'
           | Blocked => Blocked
           | Fatal reason => Fatal reason
           end.

Notation "x <- c ;; k" := (bind c (fun x => k))
  (at level 100, c at next level, right associativity).
Notation "c ;; k" := (bind c (fun _ => k))
  (at level 100, right associativity).

(** [defer cleanup] at the head of [body]: no body below panics, so the
    deferred call runs when the body returns. *)
Definition defer {A : Type} (cleanup : M unit) (body : M A) : M A :=
  a <- body ;; cleanup ;; ret a.

Definition set_Filters (fs : Filters) (w : World) : World :=
  {| w_log := {| log_Filters := fs; log_RWMutex := log_RWMutex (w_log w) |};
     w_trace := w_trace w; w_iter := w_iter w |}.

Definition set_RWMutex (mu : RWMutex) (w : World) : World :=
  {| w_log := {| log_Filters := log_Filters (w_log w); log_RWMutex := mu |};
     w_trace := w_trace w; w_iter := w_iter w |}.

Definition add_events (evs : list event) (w : World) : World :=
  {| w_log := w_log w; w_trace := w_trace w ++ evs; w_iter := w_iter w |}.

Definition next_iter (w : World) : World :=
  {| w_log := w_log w; w_trace := w_trace w; w_iter := S (w_iter w) |}.

Definition emit (e : event) : M unit := fun w => Done tt (add_events [e] w).

Definition get_Filters : M Filters := fun w => Done (log_Filters (w_log w)) w.

(** [sync.RWMutex] methods. *)
Definition RLock : M unit := fun w =>
  let mu := log_RWMutex (w_log w) in
  if writer mu then Blocked
  else Done tt (set_RWMutex {| readers := S (readers mu); writer := false |} w).

Definition RUnlock : M unit := fun w =>
  let mu := log_RWMutex (w_log w) in
  match readers mu with
  | O => Fatal "sync: RUnlock of unlocked RWMutex"
  | S n => Done tt (set_RWMutex {| readers := n; writer := writer mu |} w)
  end.

Definition Lock : M unit := fun w =>
  let mu := log_RWMutex (w_log w) in
  if writer mu then Blocked
  else match readers mu with
       | O => Done tt (set_RWMutex {| readers := 0; writer := true |} w)
       | S _ => Blocked
       end.

Definition Unlock : M unit := fun w =>
  let mu := log_RWMutex (w_log w) in
  if writer mu
  then Done tt (set_RWMutex {| readers := readers mu; writer := false |} w)
  else Fatal "sync: Unlock of unlocked RWMutex".

(** ** The logger (lines 141-403) *)

Section Logger.
Context {rt : Runtime}.

(** Calls into caller-supplied code: each leaves an event and yields what the
    library or the closure returns. *)
Definition Sprintf (format : string) (a : list value) : M string :=
  emit (EvSprintf format a) ;; ret (fmt_Sprintf format a).

Definition Sprint (a : list value) : M string :=
  emit (EvSprint a) ;; ret (fmt_Sprint a).

Definition call (c : closure) : M string :=
  emit (EvCall c) ;; ret (closure_returns c).

Definition Now : M Z := fun w =>
  Done (time_Now (length (w_trace w))) (add_events [EvNow] w).

(** [runtime.Caller(skip)] and the source string built from it; the format
    is applied to a string and an int of the runtime's own. *)
Definition caller_source (skip : nat) : string :=
  match runtime_Caller skip with
  | Some (pc, lineno) =>
      fmt_Sprintf "%s:%d" [VString (runtime_FuncName pc); VInt lineno]
  | None => ""
  end.

Definition acquireLock : M unit := RLock.
Definition releaseLock : M unit := RUnlock.
Definition acquireWriteLock : M unit := Lock.
Definition releaseWriteLock : M unit := Unlock.

(** [NewLogger] *)
Definition NewLogger : Logger :=
  {| log_Filters := ∅; log_RWMutex := unlocked |}.

(** [for name, filt := range log.Filters { body }]: the order is fixed when
    the loop starts; an entry deleted before the loop reaches it is not
    produced, and an entry is produced with its current value. *)
Fixpoint range_loop (body : string -> Filter -> M unit) (keys : list string)
  : M unit :=
  match keys with
  | [] => ret tt
  | name :: keys' =>
      filters <- get_Filters ;;
      match filters !! name with
      | Some filt => body name filt ;; range_loop body keys'
      | None => range_loop body keys'
      end
  end.

Definition range_Filters (body : string -> Filter -> M unit) : M unit :=
  fun w =>
    range_loop body (range_order (w_iter w) (log_Filters (w_log w))).*1
      (next_iter w).

(** [delete(log.Filters, name)] *)
Definition delete_Filter (name : string) : M unit := fun w =>
  Done tt (set_Filters (delete name (log_Filters (w_log w))) w).

(** [func (log *Logger) Close()] *)
Definition Close : M unit :=
  acquireWriteLock ;;
  defer releaseWriteLock
    (range_Filters (fun name filt => emit (EvClose filt) ;; delete_Filter name)).

(** [func (log *Logger) AddFilter(name, lvl, writer) *Logger]: the result is
    the receiver itself, which is the logger of the world. *)
Definition AddFilter (name : string) (lvl : Level) (writer : LogWriter)
  : M unit := fun w =>
  Done tt
    (set_Filters
       (<[name := {| filt_Level := lvl; filt_LogWriter := writer |}]>
          (log_Filters (w_log w))) w).

(** The loop of [shouldSkip]: [skip] starts true; the first filter with
    [lvl >= filt.Level] sets it to false and breaks. *)
Fixpoint shouldSkip_loop (lvl : Level) (fs : list (string * Filter)) : bool :=
  match fs with
  | [] => true
  | (_, filt) :: rest =>
      if lvl >=? filt_Level filt then false else shouldSkip_loop lvl rest
  end.

(** [func (log *Logger) shouldSkip(lvl Level) bool] *)
Definition shouldSkip (lvl : Level) : M bool := fun w =>
  Done (shouldSkip_loop lvl (range_order (w_iter w) (log_Filters (w_log w))))
       (next_iter w).

(** [func (log *Logger) dispatchLogsForLogRecord(lvl, rec)] *)
Definition dispatchLogsForLogRecord (lvl : Level) (rec : LogRecord) : M unit :=
  range_Filters (fun _ filt =>
    if lvl <? filt_Level filt then ret tt
    else emit (EvLogWrite filt rec)).

(** [func (log *Logger) dispatchLogsForSourceAndMessage(lvl, source, message)] *)
Definition dispatchLogsForSourceAndMessage (lvl : Level)
  (source message : string) : M unit :=
  now <- Now ;;
  dispatchLogsForLogRecord lvl
    {| rec_Level := lvl; rec_Created := now;
       rec_Source := source; rec_Message := message |}.

(** [func (log *Logger) intLogf(lvl, format, args...)] *)
Definition intLogf (lvl : Level) (format : string) (args : list value)
  : M unit :=
  acquireLock ;;
  defer releaseLock
    (skip <- shouldSkip lvl ;;
     if skip then ret tt
     else
       (let src := caller_source 3 in
        msg <- (if (0 <? length args)%nat then Sprintf format args
                else ret format) ;;
        dispatchLogsForSourceAndMessage lvl src msg)).

(** [func (log *Logger) intLogc(lvl, closure)] *)
Definition intLogc (lvl : Level) (c : closure) : M unit :=
  acquireLock ;;
  defer releaseLock
    (skip <- shouldSkip lvl ;;
     if skip then ret tt
     else
       (let src := caller_source 2 in
        msg <- call c ;;
        dispatchLogsForSourceAndMessage lvl src msg)).

(** [func (log *Logger) Log(lvl, source, message)] *)
Definition Log (lvl : Level) (source message : string) : M unit :=
  acquireLock ;;
  defer releaseLock
    (skip <- shouldSkip lvl ;;
     if skip then ret tt
     else dispatchLogsForSourceAndMessage lvl source message).

(** [Logf] and [Logc] *)
Definition Logf (lvl : Level) (format : string) (args : list value) : M unit :=
  intLogf lvl format args.

Definition Logc (lvl : Level) (c : closure) : M unit :=
  intLogc lvl c.

(** [func (log *Logger) upToInfo(lvl, arg0, args...)].  In the default case
    the format string is an argument of the call, so [fmt.Sprint] runs
    before [intLogf] is entered. *)
Definition upToInfo (lvl : Level) (arg0 : value) (args : list value)
  : M unit :=
  match arg0 with
  | VString first => intLogf lvl first args
  | VFunc first => intLogc lvl first
  | _ =>
      s <- Sprint [arg0] ;;
      intLogf lvl (s +:+ strings_Repeat " %v" (length args)) args
  end.

Definition Finest (arg0 : value) (args : list value) : M unit :=
  upToInfo FINEST arg0 args.
Definition Fine (arg0 : value) (args : list value) : M unit :=
  upToInfo FINE arg0 args.
Definition Debug (arg0 : value) (args : list value) : M unit :=
  upToInfo DEBUG arg0 args.
Definition Trace (arg0 : value) (args : list value) : M unit :=
  upToInfo TRACE arg0 args.
Definition Info (arg0 : value) (args : list value) : M unit :=
  upToInfo INFO arg0 args.

(** [func (log *Logger) overWarning(lvl, arg0, args...) error] *)
Definition overWarning (lvl : Level) (arg0 : value) (args : list value)
  : M error :=
  msg <- match arg0 with
         | VString first => Sprintf first args
         | VFunc first => call first
         | _ =>
             s <- Sprint [arg0] ;;
             Sprintf (s +:+ strings_Repeat " %v" (length args)) args
         end ;;
  intLogf lvl msg [] ;;
  ret (errors_New msg).

Definition Warn (arg0 : value) (args : list value) : M error :=
  overWarning WARNING arg0 args.
Definition Error (arg0 : value) (args : list value) : M error :=
  overWarning ERROR arg0 args.
Definition Critical (arg0 : value) (args : list value) : M error :=
  overWarning CRITICAL arg0 args.

End Logger.

(** ** A concrete runtime

    Formatting is the [fmt] fragment above; the stack, the clock and the
    iteration order are fixed choices (the order alternates between two
    enumerations of the map). *)

Definition go_range_order (n : nat) (m : Filters) : list (string * Filter) :=
  if Nat.even n then map_to_list m else reverse (map_to_list m).

Definition go_runtime : Runtime := {|
  fmt_Sprintf := go_Sprintf;
  fmt_Sprint := go_Sprint;
  runtime_Caller := fun _ => Some (4198400%N, 42);
  runtime_FuncName := fun _ => "main.main";
  time_Now := fun n => 1700000000 + Z.of_nat n;
  range_order := go_range_order;
  range_order_perm := fun n m =>
    match Nat.even n as b
      return (if b then map_to_list m else reverse (map_to_list m))
             ≡ₚ map_to_list m
    with
    | true => reflexivity (map_to_list m)
    | false => reverse_Permutation (map_to_list m)
    end
|}.

(** A fresh world around a logger. *)
Definition world_of (log : Logger) : World :=
  {| w_log := log; w_trace := []; w_iter := 0 |}.

(** ** Vocabulary of the statements *)

(** No thread holds the mutex; no thread holds it for writing. *)
Definition idle (w : World) : Prop := log_RWMutex (w_log w) = unlocked.

Definition no_writer (w : World) : Prop :=
  writer (log_RWMutex (w_log w)) = false.

(** A filter takes level [lvl] when its threshold is at most [lvl]. *)
Definition accepts (lvl : Level) (filt : Filter) : Prop :=
  filt_Level filt <= lvl.

Definition some_accepts (fs : Filters) (lvl : Level) : Prop :=
  exists name filt, fs !! name = Some filt /\ accepts lvl filt.

Definition none_accepts (fs : Filters) (lvl : Level) : Prop :=
  forall name filt, fs !! name = Some filt -> lvl < filt_Level filt.

#[global] Instance accepts_dec (lvl : Level) (filt : Filter) :
  Decision (accepts lvl filt) := Z_le_dec (filt_Level filt) lvl.

(** The writes one dispatch makes when it visits the filters [fs]. *)
Definition deliveries (lvl : Level) (rec : LogRecord)
  (fs : list (string * Filter)) : list event :=
  (fun nf => EvLogWrite nf.2 rec) <$> filter (fun nf => accepts lvl nf.2) fs.

#[global] Instance closure_eq_dec : EqDecision closure.
Proof. solve_decision. Defined.
#[global] Instance value_eq_dec : EqDecision value.
Proof. solve_decision. Defined.
#[global] Instance LogRecord_eq_dec : EqDecision LogRecord.
Proof. solve_decision. Defined.
#[global] Instance Filter_eq_dec : EqDecision Filter.
Proof. solve_decision. Defined.
#[global] Instance event_eq_dec : EqDecision event.
Proof. solve_decision. Defined.

(** Kinds of events: applications of the formatting functions, closure
    calls, events that produce a message (a [Sprintf] or a closure call),
    clock reads. *)
Definition is_format (e : event) : bool :=
  match e with EvSprintf _ _ | EvSprint _ => true | _ => false end.

Definition is_call (e : event) : bool :=
  match e with EvCall _ => true | _ => false end.

Definition is_message (e : event) : bool :=
  match e with EvSprintf _ _ | EvCall _ => true | _ => false end.

Definition is_Now (e : event) : bool :=
  match e with EvNow => true | _ => false end.

(** How many events of a kind a trace holds; how often one event occurs. *)
Definition count (kind : event -> bool) (tr : list event) : nat :=
  length (List.filter kind tr).

Definition occurrences (e : event) (tr : list event) : nat :=
  count (fun e' => bool_decide (e' = e)) tr.

(** Records made: each one reads the clock once. *)
Definition records_made (tr : list event) : nat := count is_Now tr.

(** The messages of the records written to sinks, oldest first. *)
Definition messages_written (tr : list event) : list string :=
  omap (fun e => match e with
                 | EvLogWrite _ rec => Some (rec_Message rec)
                 | _ => None
                 end) tr.

(** The trace a computation leaves, and what it returns, when it returns. *)
Definition trace_of {A : Type} (c : M A) (w : World) : option (list event) :=
  match c w with
  | Done _ w' => Some (w_trace w')
  | _ => None
  end.

Definition returned {A : Type} (c : M A) (w : World) : option A :=
  match c w with
  | Done a _ => Some a
  | _ => None
  end.

(** The events by which [upToInfo]'s default case and [overWarning] build a
    message from the caller's arguments, and the message they build. *)
Definition formatting `{Runtime} (arg0 : value) (args : list value)
  : list event :=
  match arg0 with
  | VString first => [EvSprintf first args]
  | VFunc first => [EvCall first]
  | _ => [EvSprint [arg0];
          EvSprintf (fmt_Sprint [arg0] +:+ strings_Repeat " %v" (length args))
                    args]
  end.

Definition formatted `{Runtime} (arg0 : value) (args : list value) : string :=
  match arg0 with
  | VString first => fmt_Sprintf first args
  | VFunc first => closure_returns first
  | _ => fmt_Sprintf (fmt_Sprint [arg0] +:+ strings_Repeat " %v" (length args))
                     args
  end.

(** What the documentation of [Debug] promises for an argument that is
    neither a string nor a closure: every argument in its [%v] rendering,
    separated by single spaces. *)
Fixpoint joined (a : list value) : string :=
  match a with
  | [] => ""
  | [x] => fmt_v x
  | x :: rest => fmt_v x +:+ " " +:+ joined rest
  end.

(** The admission check as [shouldSkip] computes it in world [w]. *)
Definition admitted `{Runtime} (lvl : Level) (w : World) : bool :=
  negb (shouldSkip_loop lvl (range_order (w_iter w) (log_Filters (w_log w)))).

(** The events of making one record and dispatching it, when the trace so
    far is [tr] and the dispatch is the [n]-th iteration over [fs]. *)
Definition record_of `{Runtime} (lvl : Level) (source message : string)
  (tr : list event) : LogRecord :=
  {| rec_Level := lvl; rec_Created := time_Now (length tr);
     rec_Source := source; rec_Message := message |}.

Definition record_events `{Runtime} (lvl : Level) (source message : string)
  (tr : list event) (n : nat) (fs : Filters) : list event :=
  EvNow :: deliveries lvl (record_of lvl source message tr) (range_order n fs).

(** The events of one call of [Log], [intLogf] and [intLogc] from [w]. *)
Definition Log_events `{Runtime} (lvl : Level) (source message : string)
  (w : World) : list event :=
  if admitted lvl w
  then record_events lvl source message (w_trace w) (S (w_iter w))
         (log_Filters (w_log w))
  else [].

Definition intLogf_events `{Runtime} (lvl : Level) (format : string)
  (args : list value) (w : World) : list event :=
  if admitted lvl w then
    if (0 <? length args)%nat then
      EvSprintf format args
      :: record_events lvl (caller_source 3) (fmt_Sprintf format args)
           (w_trace w ++ [EvSprintf format args]) (S (w_iter w))
           (log_Filters (w_log w))
    else
      record_events lvl (caller_source 3) format (w_trace w) (S (w_iter w))
        (log_Filters (w_log w))
  else [].

Definition intLogc_events `{Runtime} (lvl : Level) (c : closure) (w : World)
  : list event :=
  if admitted lvl w then
    EvCall c
    :: record_events lvl (caller_source 2) (closure_returns c)
         (w_trace w ++ [EvCall c]) (S (w_iter w)) (log_Filters (w_log w))
  else [].

(** The events of one call of [upToInfo] from [w], and the message it
    submits. *)
Definition upToInfo_events `{Runtime} (lvl : Level) (arg0 : value)
  (args : list value) (w : World) : list event :=
  match arg0 with
  | VString first => intLogf_events lvl first args w
  | VFunc first => intLogc_events lvl first w
  | _ =>
      EvSprint [arg0]
      :: intLogf_events lvl
           (fmt_Sprint [arg0] +:+ strings_Repeat " %v" (length args)) args
           (add_events [EvSprint [arg0]] w)
  end.

(** The tail of [joined]: each argument after a space. *)
Fixpoint spaced (a : list value) : string :=
  match a with
  | [] => ""
  | x :: rest => " " +:+ fmt_v x +:+ spaced rest
  end.

Fixpoint has_percent (s : string) : bool :=
  match s with
  | EmptyString => false
  | String c rest => if decide (c = "%"%char) then true else has_percent rest
  end.

(** ** Sample loggers *)

Definition filter_a : Filter := {| filt_Level := DEBUG; filt_LogWriter := 1%N |}.
Definition filter_b : Filter := {| filt_Level := ERROR; filt_LogWriter := 2%N |}.

(** The logger with filters [{"a": DEBUG, "b": ERROR}]. *)
Definition logger_ab : Logger :=
  {| log_Filters := <["b" := filter_b]> (<["a" := filter_a]> ∅);
     log_RWMutex := unlocked |}.

(** A logger whose only filter starts at [ERROR]. *)
Definition logger_b : Logger :=
  {| log_Filters := <["b" := filter_b]> ∅; log_RWMutex := unlocked |}.

Definition sample_record : LogRecord :=
  {| rec_Level := WARNING; rec_Created := 1700000000;
     rec_Source := "main.main:42"; rec_Message := "disk full" |}.

Definition sample_closure : closure :=
  {| closure_pc := 4198912%N; closure_returns := "lazily built" |}.

(** ** The default logger (lines 171-177) *)

(** [func NewDefaultLogger(lvl Level) *Logger].  The sink of the "stdout"
    filter is what [NewConsoleLogWriter()] returns; that constructor lives in
    another file of the package, so its result is taken as a handle. *)
Definition NewDefaultLogger (console : LogWriter) (lvl : Level) : Logger :=
  {| log_Filters :=
       <["stdout" := {| filt_Level := lvl; filt_LogWriter := console |}]>
         (log_Filters NewLogger);
     log_RWMutex := log_RWMutex NewLogger |}.

(** ** More vocabulary *)

Definition is_write (e : event) : bool :=
  match e with EvLogWrite _ _ => true | _ => false end.

Definition is_close (e : event) : bool :=
  match e with EvClose _ => true | _ => false end.

(** The message [upToInfo] submits: [intLogf] formats only when there are
    arguments to format. *)
Definition upToInfo_message `{Runtime} (arg0 : value) (args : list value)
  : string :=
  match arg0 with
  | VString first =>
      if (0 <? length args)%nat then fmt_Sprintf first args else first
  | VFunc first => closure_returns first
  | _ =>
      if (0 <? length args)%nat
      then fmt_Sprintf
             (fmt_Sprint [arg0] +:+ strings_Repeat " %v" (length args)) args
      else fmt_Sprint [arg0] +:+ strings_Repeat " %v" (length args)
  end.

(** The events [new] hold no write through a filter that is absent from
    [fs] or above the level, and no [Close]. *)
Definition sound_writes (fs : Filters) (lvl : Level) (new : list event)
  : Prop :=
  (forall filt rec, EvLogWrite filt rec ∈ new ->
     filt_Level filt <= lvl /\ exists name, fs !! name = Some filt)
  /\ count is_close new = 0%nat.

(** The sample logger while two other readers hold the mutex, and while a
    writer holds it. *)
Definition logger_ab_shared : Logger :=
  {| log_Filters := log_Filters logger_ab;
     log_RWMutex := {| readers := 2; writer := false |} |}.

Definition logger_ab_locked : Logger :=
  {| log_Filters := log_Filters logger_ab;
     log_RWMutex := {| readers := 0; writer := true |} |}.

(** * Facts *)

(** ** [Level.String] *)

Lemma Level_String_in_range (l : Level) :
  0 <= l < 8 ->
  exists s, levelStrings !! Z.to_nat l = Some s /\ Level_String l = Returns s.
Proof.
  intros Hl.
  assert (Hcases : l = 0 \/ l = 1 \/ l = 2 \/ l = 3 \/ l = 4 \/ l = 5
                   \/ l = 6 \/ l = 7) by lia.
  destruct Hcases as [-> | [-> | [-> | [-> | [-> | [-> | [-> | ->]]]]]]];
    eexists; split; reflexivity.
Qed.

Lemma Level_String_negative (l : Level) :
  l < 0 -> Level_String l = Returns "UNKNOWN".
Proof.
  intros Hl. unfold Level_String.
  destruct (Z.ltb_spec l 0) as [_ | Hge]; [reflexivity | lia].
Qed.

Lemma Level_String_above (l : Level) :
  8 < l -> Level_String l = Returns "UNKNOWN".
Proof.
  intros Hl. unfold Level_String.
  destruct (Z.ltb_spec (Z.of_nat (length levelStrings)) l) as [_ | Hge].
  - by rewrite orb_true_r.
  - simpl in Hge. lia.
Qed.

Lemma Level_String_FINEST : Level_String FINEST = Returns "FNST".
Proof. reflexivity. Qed.

Lemma Level_String_CRITICAL : Level_String CRITICAL = Returns "CRIT".
Proof. reflexivity. Qed.

(** C2.  The guard of [Level.String] compares with [>] where the array needs
    [>=]: the level just past [CRITICAL], which is the length of
    [levelStrings], passes the guard and the array access panics instead of
    the method returning "UNKNOWN". *)
Theorem Level_String_past_CRITICAL :
  Level_String (Z.of_nat (length levelStrings))
  = Panics "index out of range".
Proof. reflexivity. Qed.

Section LoggerFacts.
Context {rt : Runtime}.

(** ** World bookkeeping *)

Lemma add_events_nil (w : World) : add_events [] w = w.
Proof. destruct w as [l tr n]. unfold add_events; simpl. by rewrite app_nil_r. Qed.

Lemma add_events_app (a b : list event) (w : World) :
  add_events b (add_events a w) = add_events (a ++ b) w.
Proof. unfold add_events; simpl. by rewrite app_assoc. Qed.

Lemma bind_Done {A B : Type} (c : M A) (k : A -> M B) (w w' : World) (a : A) :
  c w = Done a w' -> bind c k w = k a w'.
Proof. intros H. unfold bind. by rewrite H. Qed.

(** ** The admission check *)

Lemma shouldSkip_loop_true (lvl : Level) (fs : list (string * Filter)) :
  shouldSkip_loop lvl fs = true <-> forall nf, nf ∈ fs -> lvl < filt_Level nf.2.
Proof.
  induction fs as [| [name filt] rest IH]; simpl.
  - split; [intros _ nf Hin; by apply elem_of_nil in Hin | done].
  - destruct (Z.geb_spec lvl (filt_Level filt)) as [Hge | Hlt].
    + split; [done |]. intros Hall.
      specialize (Hall (name, filt) (list_elem_of_here _ _)). simpl in Hall. lia.
    + rewrite IH. split.
      * intros Hall nf Hin. apply elem_of_cons in Hin as [-> | Hin]; [done |].
        by apply Hall.
      * intros Hall nf Hin. apply Hall. by apply list_elem_of_further.
Qed.

Lemma shouldSkip_loop_none (lvl : Level) (m : Filters) (fs : list (string * Filter)) :
  fs ≡ₚ map_to_list m ->
  shouldSkip_loop lvl fs = true <-> none_accepts m lvl.
Proof.
  intros Hperm. rewrite shouldSkip_loop_true. unfold none_accepts. split.
  - intros Hall name filt Hlook.
    apply (Hall (name, filt)). rewrite Hperm. by apply elem_of_map_to_list.
  - intros Hall [name filt] Hin. rewrite Hperm in Hin.
    apply elem_of_map_to_list in Hin. by apply (Hall name).
Qed.

Lemma shouldSkip_loop_some (lvl : Level) (m : Filters) (fs : list (string * Filter)) :
  fs ≡ₚ map_to_list m ->
  shouldSkip_loop lvl fs = false <-> some_accepts m lvl.
Proof.
  intros Hperm. split.
  - intros Hfalse. induction fs as [| [name filt] rest IH] in m, Hperm, Hfalse |- *;
      simpl in Hfalse; [done |].
    destruct (Z.geb_spec lvl (filt_Level filt)) as [Hge | Hlt].
    + exists name, filt. split; [| unfold accepts; lia].
      apply elem_of_map_to_list. rewrite <- Hperm. apply list_elem_of_here.
    + assert (Hrest : exists nf, nf ∈ rest /\ accepts lvl nf.2).
      { clear IH Hperm. induction rest as [| [n f] rest IH]; simpl in Hfalse; [done |].
        destruct (Z.geb_spec lvl (filt_Level f)) as [Hge | Hlt'].
        - exists (n, f). split; [apply list_elem_of_here | unfold accepts; simpl; lia].
        - destruct (IH Hfalse) as (nf & Hin & Hacc).
          exists nf. split; [by apply list_elem_of_further | done]. }
      destruct Hrest as ([n f] & Hin & Hacc).
      exists n, f. split; [| done].
      apply elem_of_map_to_list. rewrite <- Hperm. by apply list_elem_of_further.
  - intros (name & filt & Hlook & Hacc).
    destruct (shouldSkip_loop lvl fs) eqn:Hskip; [| done].
    apply (shouldSkip_loop_none lvl m fs Hperm) in Hskip.
    specialize (Hskip name filt Hlook). unfold accepts in Hacc. lia.
Qed.

Lemma shouldSkip_run (lvl : Level) (w : World) :
  shouldSkip lvl w
  = Done (shouldSkip_loop lvl (range_order (w_iter w) (log_Filters (w_log w))))
         (next_iter w).
Proof. reflexivity. Qed.

(** ** Ranging over the filters *)

Lemma range_order_lookup (n : nat) (m : Filters) (nf : string * Filter) :
  nf ∈ range_order n m <-> m !! nf.1 = Some nf.2.
Proof. rewrite (range_order_perm n m). apply elem_of_map_to_list'. Qed.

Lemma range_order_NoDup (n : nat) (m : Filters) : NoDup (range_order n m).*1.
Proof. rewrite (range_order_perm n m). apply NoDup_fst_map_to_list. Qed.

Lemma deliveries_cons_accept lvl rec name filt rest :
  accepts lvl filt ->
  deliveries lvl rec ((name, filt) :: rest)
  = EvLogWrite filt rec :: deliveries lvl rec rest.
Proof. intros Hacc. unfold deliveries. by rewrite filter_cons_True. Qed.

Lemma deliveries_cons_reject lvl rec name filt rest :
  ~ accepts lvl filt ->
  deliveries lvl rec ((name, filt) :: rest) = deliveries lvl rec rest.
Proof. intros Hacc. unfold deliveries. by rewrite filter_cons_False. Qed.

Lemma dispatch_loop (lvl : Level) (rec : LogRecord)
  (fs : list (string * Filter)) (w : World) :
  (forall nf, nf ∈ fs -> log_Filters (w_log w) !! nf.1 = Some nf.2) ->
  range_loop (fun _ filt => if lvl <? filt_Level filt then ret tt
                            else emit (EvLogWrite filt rec)) fs.*1 w
  = Done tt (add_events (deliveries lvl rec fs) w).
Proof.
  induction fs as [| [name filt] rest IH] in w |- *; intros Hin.
  - simpl. unfold ret. by rewrite add_events_nil.
  - cbn [fmap list_fmap fst range_loop].
    unfold bind at 1, get_Filters.
    pose proof (Hin (name, filt) (list_elem_of_here _ _)) as Hhead.
    cbn [fst snd] in Hhead. rewrite Hhead.
    assert (Hrest : forall v, (forall nf, nf ∈ rest ->
              log_Filters (w_log (add_events v w)) !! nf.1 = Some nf.2)).
    { intros v nf Hnf. cbn. apply Hin. by apply list_elem_of_further. }
    destruct (Z.ltb_spec lvl (filt_Level filt)) as [Hlt | Hge].
    + erewrite bind_Done by reflexivity. rewrite IH.
      * rewrite deliveries_cons_reject; [done | unfold accepts; lia].
      * intros nf Hnf. apply Hin. by apply list_elem_of_further.
    + erewrite bind_Done by reflexivity. rewrite IH by apply Hrest.
      rewrite add_events_app, deliveries_cons_accept; [done | unfold accepts; lia].
Qed.

Lemma dispatchLogsForLogRecord_run (lvl : Level) (rec : LogRecord) (w : World) :
  dispatchLogsForLogRecord lvl rec w
  = Done tt (add_events
               (deliveries lvl rec
                  (range_order (w_iter w) (log_Filters (w_log w))))
               (next_iter w)).
Proof.
  unfold dispatchLogsForLogRecord, range_Filters.
  apply dispatch_loop. intros nf Hnf. cbn. by apply range_order_lookup in Hnf.
Qed.

(** What is left of a map once the keys [ks] have been deleted one by one. *)
Lemma lookup_foldl_delete (m : Filters) (ks : list string) (k : string) :
  foldl (fun m' k' => delete k' m') m ks !! k
  = if decide (k ∈ ks) then None else m !! k.
Proof.
  induction ks as [| k0 ks IH] in m |- *; cbn [foldl].
  - destruct (decide (k ∈ [])) as [Hin | _]; [by apply elem_of_nil in Hin | done].
  - rewrite IH.
    destruct (decide (k ∈ ks)) as [Hin | Hnin];
      destruct (decide (k ∈ k0 :: ks)) as [Hin' | Hnin']; try done.
    + exfalso. apply Hnin'. by apply list_elem_of_further.
    + apply elem_of_cons in Hin' as [-> | ?]; [| done]. apply lookup_delete_eq.
    + apply lookup_delete_ne. intros ->. apply Hnin'. apply list_elem_of_here.
Qed.

Lemma Close_loop (fs : list (string * Filter)) (w : World) :
  NoDup fs.*1 ->
  (forall nf, nf ∈ fs -> log_Filters (w_log w) !! nf.1 = Some nf.2) ->
  range_loop (fun name filt => emit (EvClose filt) ;; delete_Filter name) fs.*1 w
  = Done tt
      (set_Filters
         (foldl (fun m' k' => delete k' m') (log_Filters (w_log w)) fs.*1)
         (add_events (EvClose <$> fs.*2) w)).
Proof.
  induction fs as [| [name filt] rest IH] in w |- *; intros Hnodup Hin.
  - simpl. unfold ret, set_Filters. rewrite add_events_nil. by destruct w as [[] ? ?].
  - cbn [fmap list_fmap fst snd range_loop foldl].
    unfold bind at 1, get_Filters.
    pose proof (Hin (name, filt) (list_elem_of_here _ _)) as Hhead.
    cbn [fst snd] in Hhead. rewrite Hhead.
    erewrite bind_Done by reflexivity.
    cbn [fmap list_fmap fst] in Hnodup. apply NoDup_cons in Hnodup as [Hfresh Hnodup].
    rewrite IH; [| done |].
    + unfold set_Filters, add_events. cbn. by rewrite <- app_assoc.
    + intros nf Hnf. cbn. rewrite lookup_delete_ne.
      * apply Hin. by apply list_elem_of_further.
      * intros ->. apply Hfresh. apply list_elem_of_fmap. by exists nf.
Qed.

Lemma Close_loop_empties (n : nat) (m : Filters) :
  foldl (fun m' k' => delete k' m') m (range_order n m).*1 = ∅.
Proof.
  apply map_eq. intros k. rewrite lookup_foldl_delete, lookup_empty.
  destruct (decide (k ∈ (range_order n m).*1)) as [Hin | Hnin]; [done |].
  destruct (m !! k) as [filt |] eqn:Hlook; [| done].
  exfalso. apply Hnin. apply list_elem_of_fmap. exists (k, filt). split; [done |].
  by apply range_order_lookup.
Qed.

(** ** Running the logging paths *)

Lemma dispatchLogsForSourceAndMessage_run lvl source message (w : World) :
  dispatchLogsForSourceAndMessage lvl source message w
  = Done tt
      (add_events
         (deliveries lvl (record_of lvl source message (w_trace w))
            (range_order (w_iter w) (log_Filters (w_log w))))
         (next_iter (add_events [EvNow] w))).
Proof.
  unfold dispatchLogsForSourceAndMessage.
  erewrite bind_Done by reflexivity.
  by rewrite dispatchLogsForLogRecord_run.
Qed.

Lemma mutex_restored (mu : RWMutex) :
  writer mu = false -> {| readers := readers mu; writer := false |} = mu.
Proof. destruct mu as [n b]; simpl. by intros ->. Qed.

Lemma logger_restored (log : Logger) :
  writer (log_RWMutex log) = false ->
  {| log_Filters := log_Filters log;
     log_RWMutex := {| readers := readers (log_RWMutex log); writer := false |} |}
  = log.
Proof. intros H. rewrite mutex_restored by done. by destruct log. Qed.

Lemma Log_run lvl source message (w : World) :
  no_writer w ->
  exists w', Log lvl source message w = Done tt w'
    /\ w_log w' = w_log w
    /\ w_trace w' = w_trace w ++ Log_events lvl source message w.
Proof.
  unfold no_writer. intros Hnw.
  unfold Log, Log_events, admitted, defer, acquireLock, releaseLock.
  unfold bind at 1. unfold RLock. rewrite Hnw.
  unfold bind at 1. unfold bind at 1. rewrite shouldSkip_run.
  cbn [next_iter set_RWMutex w_log w_trace w_iter log_Filters log_RWMutex].
  destruct (shouldSkip_loop lvl _) eqn:Hskip; cbn [negb].
  - cbn. eexists. split; [reflexivity |]. cbn. rewrite app_nil_r.
    split; [by apply logger_restored | done].
  - rewrite dispatchLogsForSourceAndMessage_run. cbn.
    eexists. split; [reflexivity |]. cbn.
    split; [by apply logger_restored |].
    unfold record_events. by rewrite <- app_assoc.
Qed.

Lemma intLogf_run lvl format args (w : World) :
  no_writer w ->
  exists w', intLogf lvl format args w = Done tt w'
    /\ w_log w' = w_log w
    /\ w_trace w' = w_trace w ++ intLogf_events lvl format args w.
Proof.
  unfold no_writer. intros Hnw.
  unfold intLogf, intLogf_events, admitted, defer, acquireLock, releaseLock.
  unfold bind at 1. unfold RLock. rewrite Hnw.
  unfold bind at 1. unfold bind at 1. rewrite shouldSkip_run.
  cbn [next_iter set_RWMutex w_log w_trace w_iter log_Filters log_RWMutex].
  destruct (shouldSkip_loop lvl _) eqn:Hskip; cbn [negb].
  - cbn. eexists. split; [reflexivity |]. cbn. rewrite app_nil_r.
    split; [by apply logger_restored | done].
  - destruct (0 <? length args)%nat.
    + erewrite bind_Done by reflexivity.
      rewrite dispatchLogsForSourceAndMessage_run. cbn.
      eexists. split; [reflexivity |]. cbn.
      split; [by apply logger_restored |].
      unfold record_events. by rewrite <- !app_assoc.
    + erewrite bind_Done by reflexivity.
      rewrite dispatchLogsForSourceAndMessage_run. cbn.
      eexists. split; [reflexivity |]. cbn.
      split; [by apply logger_restored |].
      unfold record_events. by rewrite <- !app_assoc.
Qed.

Lemma intLogc_run lvl c (w : World) :
  no_writer w ->
  exists w', intLogc lvl c w = Done tt w'
    /\ w_log w' = w_log w
    /\ w_trace w' = w_trace w ++ intLogc_events lvl c w.
Proof.
  unfold no_writer. intros Hnw.
  unfold intLogc, intLogc_events, admitted, defer, acquireLock, releaseLock.
  unfold bind at 1. unfold RLock. rewrite Hnw.
  unfold bind at 1. unfold bind at 1. rewrite shouldSkip_run.
  cbn [next_iter set_RWMutex w_log w_trace w_iter log_Filters log_RWMutex].
  destruct (shouldSkip_loop lvl _) eqn:Hskip; cbn [negb].
  - cbn. eexists. split; [reflexivity |]. cbn. rewrite app_nil_r.
    split; [by apply logger_restored | done].
  - erewrite bind_Done by reflexivity.
    rewrite dispatchLogsForSourceAndMessage_run. cbn.
    eexists. split; [reflexivity |]. cbn.
    split; [by apply logger_restored |].
    unfold record_events. by rewrite <- !app_assoc.
Qed.

Lemma no_writer_add_events evs (w : World) :
  no_writer w -> no_writer (add_events evs w).
Proof. done. Qed.

Lemma upToInfo_run lvl arg0 args (w : World) :
  no_writer w ->
  exists w', upToInfo lvl arg0 args w = Done tt w'
    /\ w_log w' = w_log w
    /\ w_trace w' = w_trace w ++ upToInfo_events lvl arg0 args w.
Proof.
  intros Hnw. unfold upToInfo, upToInfo_events.
  destruct arg0 as [first | first | n | b | text];
    [by apply intLogf_run | by apply intLogc_run | | |].
  all: erewrite bind_Done by reflexivity.
  all: match goal with
       | |- context [intLogf ?l ?f ?a ?w1] =>
           destruct (intLogf_run l f a w1 Hnw) as (w' & Hrun & Hlog & Htr)
       end.
  all: exists w'; split; [done |]; split; [done |].
  all: rewrite Htr; cbn; by rewrite <- app_assoc.
Qed.

Lemma overWarning_run lvl arg0 args (w : World) :
  no_writer w ->
  exists w', overWarning lvl arg0 args w
             = Done (errors_New (formatted arg0 args)) w'
    /\ w_log w' = w_log w
    /\ w_trace w' = w_trace w ++ formatting arg0 args
         ++ intLogf_events lvl (formatted arg0 args) []
              (add_events (formatting arg0 args) w).
Proof.
  intros Hnw. unfold overWarning.
  destruct (intLogf_run lvl (formatted arg0 args) []
              (add_events (formatting arg0 args) w) Hnw)
    as (w' & Hrun & Hlog & Htr).
  exists w'. split; [| split; [done |]].
  - destruct arg0 as [first | first | n | b | text].
    all: erewrite bind_Done by reflexivity.
    all: cbn [formatted formatting] in Hrun.
    all: try rewrite add_events_app.
    all: erewrite bind_Done by exact Hrun.
    all: reflexivity.
  - rewrite Htr. cbn. by rewrite <- app_assoc.
Qed.

Lemma Close_run (w : World) :
  idle w ->
  exists w', Close w = Done tt w'
    /\ w_log w' = NewLogger
    /\ w_trace w' = w_trace w
         ++ (EvClose <$> (range_order (w_iter w) (log_Filters (w_log w))).*2).
Proof.
  unfold idle. intros Hidle.
  unfold Close, defer, acquireWriteLock, releaseWriteLock.
  unfold bind at 1. unfold Lock. rewrite Hidle. cbn [unlocked writer readers].
  unfold bind at 1. unfold range_Filters.
  rewrite Close_loop.
  - cbn. eexists. split; [reflexivity |]. cbn.
    split; [| done]. unfold NewLogger. by rewrite Close_loop_empties.
  - apply range_order_NoDup.
  - intros nf Hnf. by apply range_order_lookup in Hnf.
Qed.

Lemma AddFilter_run name lvl writer (w : World) :
  AddFilter name lvl writer w
  = Done tt
      (set_Filters
         (<[name := {| filt_Level := lvl; filt_LogWriter := writer |}]>
            (log_Filters (w_log w))) w).
Proof. reflexivity. Qed.

(** The lock hypotheses above are needed: while some thread holds the
    mutex for writing, the logging paths wait at [acquireLock], and [Close]
    waits while anybody holds it. *)
Lemma logging_waits_for_writer lvl source message format args c (w : World) :
  writer (log_RWMutex (w_log w)) = true ->
  Log lvl source message w = Blocked
  /\ intLogf lvl format args w = Blocked
  /\ intLogc lvl c w = Blocked.
Proof.
  intros Hheld.
  unfold Log, intLogf, intLogc, acquireLock, bind, RLock. by rewrite Hheld.
Qed.

Lemma Close_waits_for_holders (w : World) :
  writer (log_RWMutex (w_log w)) = true
  \/ (0 < readers (log_RWMutex (w_log w)))%nat ->
  Close w = Blocked.
Proof.
  intros Hheld. unfold Close, acquireWriteLock, bind, Lock.
  destruct (writer (log_RWMutex (w_log w))); [done |].
  destruct (readers (log_RWMutex (w_log w))); [| done].
  destruct Hheld as [? | ?]; [done | lia].
Qed.

(** ** Reading traces *)

Lemma count_app kind (a b : list event) :
  count kind (a ++ b) = (count kind a + count kind b)%nat.
Proof. unfold count. by rewrite List.filter_app, length_app. Qed.

Lemma count_deliveries kind lvl rec fs :
  (forall filt, kind (EvLogWrite filt rec) = false) ->
  count kind (deliveries lvl rec fs) = 0%nat.
Proof.
  intros Hkind. unfold deliveries.
  induction (filter (fun nf => accepts lvl nf.2) fs) as [| nf l IH]; [done |].
  unfold count in *. cbn. by rewrite Hkind.
Qed.

Lemma elem_of_deliveries lvl rec fs filt rec' :
  EvLogWrite filt rec' ∈ deliveries lvl rec fs
  <-> rec' = rec /\ accepts lvl filt /\ exists name, (name, filt) ∈ fs.
Proof.
  unfold deliveries. rewrite list_elem_of_fmap. split.
  - intros ([name filt0] & Heq & Hin). cbn in Heq. injection Heq as -> ->.
    apply list_elem_of_filter in Hin as [Hacc Hin]. eauto.
  - intros (-> & Hacc & name & Hin). exists (name, filt). split; [done |].
    by apply list_elem_of_filter.
Qed.

Lemma deliveries_Permutation lvl rec fs fs' :
  fs ≡ₚ fs' -> deliveries lvl rec fs ≡ₚ deliveries lvl rec fs'.
Proof. intros Hperm. unfold deliveries. by rewrite Hperm. Qed.

Lemma admitted_false lvl (w : World) :
  admitted lvl w = false <-> none_accepts (log_Filters (w_log w)) lvl.
Proof.
  unfold admitted. rewrite negb_false_iff.
  apply shouldSkip_loop_none, range_order_perm.
Qed.

Lemma admitted_true lvl (w : World) :
  admitted lvl w = true <-> some_accepts (log_Filters (w_log w)) lvl.
Proof.
  unfold admitted. rewrite negb_true_iff.
  apply shouldSkip_loop_some, range_order_perm.
Qed.

Lemma records_made_record_events lvl source message tr n fs :
  records_made (record_events lvl source message tr n fs) = 1%nat.
Proof.
  unfold records_made, record_events.
  change (EvNow :: ?l) with ([EvNow] ++ l).
  rewrite count_app, count_deliveries; done.
Qed.

Lemma count_record_events kind lvl source message tr n fs :
  kind EvNow = false ->
  (forall filt rec, kind (EvLogWrite filt rec) = false) ->
  count kind (record_events lvl source message tr n fs) = 0%nat.
Proof.
  intros HNow Hwrite. unfold record_events.
  change (EvNow :: ?l) with ([EvNow] ++ l).
  rewrite count_app, count_deliveries by done.
  unfold count. cbn. by rewrite HNow.
Qed.

Lemma record_events_message lvl source message tr n fs filt rec :
  EvLogWrite filt rec ∈ record_events lvl source message tr n fs ->
  rec = record_of lvl source message tr.
Proof.
  unfold record_events. intros Hin.
  apply elem_of_cons in Hin as [Heq | Hin]; [done |].
  by apply elem_of_deliveries in Hin as [-> _].
Qed.

(** ** Dispatch by threshold *)

Lemma elem_of_record_events lvl source message tr n (fs : Filters) name filt :
  fs !! name = Some filt ->
  EvLogWrite filt (record_of lvl source message tr)
    ∈ record_events lvl source message tr n fs
  <-> filt_Level filt <= lvl.
Proof.
  intros Hlook. unfold record_events.
  rewrite elem_of_cons, elem_of_deliveries. unfold accepts. split.
  - intros [Heq | (_ & Hacc & _)]; done.
  - intros Hacc. right. split; [done |]. split; [done |].
    exists name. by apply (range_order_lookup n fs (name, filt)).
Qed.

(** C3.  For every logger, level and record, and every filter of the map:
    [dispatchLogsForLogRecord] calls [LogWrite] through the filter exactly
    when the filter's threshold is at most the level (the comparison is not
    strict); the writes it makes are, in some order, one per accepting entry
    of the map.  The same holds for a whole [Log] call, where the admission
    check can only skip when no filter accepts. *)
Theorem dispatch_delivers_iff_threshold_le_level
  (w : World) (lvl : Level) (rec : LogRecord) (name : string) (filt : Filter) :
  log_Filters (w_log w) !! name = Some filt ->
  no_writer w ->
  (exists w' new,
      dispatchLogsForLogRecord lvl rec w = Done tt w'
      /\ w_trace w' = w_trace w ++ new
      /\ (EvLogWrite filt rec ∈ new <-> filt_Level filt <= lvl)
      /\ new ≡ₚ deliveries lvl rec (map_to_list (log_Filters (w_log w))))
  /\ (forall source message, exists w' new,
         Log lvl source message w = Done tt w'
         /\ w_trace w' = w_trace w ++ new
         /\ (EvLogWrite filt (record_of lvl source message (w_trace w)) ∈ new
             <-> filt_Level filt <= lvl)).
Proof.
  intros Hlook Hnw. split.
  - rewrite dispatchLogsForLogRecord_run. eexists _, _.
    split; [reflexivity |]. split; [reflexivity |]. split.
    + rewrite elem_of_deliveries. unfold accepts. split.
      * by intros (_ & Hacc & _).
      * intros Hacc. split; [done |]. split; [done |].
        exists name. by apply (range_order_lookup _ _ (name, filt)).
    + apply deliveries_Permutation, range_order_perm.
  - intros source message.
    destruct (Log_run lvl source message w Hnw) as (w' & Hrun & _ & Htr).
    exists w', (Log_events lvl source message w).
    split; [done |]. split; [done |].
    unfold Log_events. destruct (admitted lvl w) eqn:Hadm.
    + by apply (elem_of_record_events _ _ _ _ _ _ name).
    + apply admitted_false in Hadm. specialize (Hadm name filt Hlook).
      split; [by intros Hin%elem_of_nil | lia].
Qed.

(** ** Skipping and lazy message construction *)

Lemma intLogf_events_no_args lvl format (w : World) :
  intLogf_events lvl format [] w
  = if admitted lvl w
    then record_events lvl (caller_source 3) format (w_trace w)
           (S (w_iter w)) (log_Filters (w_log w))
    else [].
Proof. reflexivity. Qed.

Lemma record_events_Permutation lvl source message tr n (fs : Filters) :
  record_events lvl source message tr n fs
  ≡ₚ EvNow :: deliveries lvl (record_of lvl source message tr) (map_to_list fs).
Proof.
  unfold record_events. constructor.
  apply deliveries_Permutation, range_order_perm.
Qed.

(** C4.  When no filter of the logger has a threshold at most the level,
    [Logf] and [Logc] return with the trace and the logger as they were: the
    formatting function is not applied and the closure is not called.  When
    some filter accepts the level, [Logc] calls the closure exactly once; in
    every case it makes at most one closure call. *)
Theorem Logf_Logc_skip_when_unaccepted (w : World) (lvl : Level) :
  no_writer w ->
  (none_accepts (log_Filters (w_log w)) lvl ->
   forall format args c,
     (exists w', Logf lvl format args w = Done tt w'
                 /\ w_log w' = w_log w /\ w_trace w' = w_trace w)
     /\ (exists w', Logc lvl c w = Done tt w'
                    /\ w_log w' = w_log w /\ w_trace w' = w_trace w))
  /\ (some_accepts (log_Filters (w_log w)) lvl ->
      forall c, exists w' new,
        Logc lvl c w = Done tt w'
        /\ w_trace w' = w_trace w ++ new
        /\ occurrences (EvCall c) new = 1%nat
        /\ count is_call new = 1%nat)
  /\ (forall c, exists w' new,
        Logc lvl c w = Done tt w'
        /\ w_trace w' = w_trace w ++ new
        /\ (count is_call new <= 1)%nat).
Proof.
  intros Hnw.
  assert (Hcalls : forall c, admitted lvl w = true ->
            occurrences (EvCall c) (intLogc_events lvl c w) = 1%nat
            /\ count is_call (intLogc_events lvl c w) = 1%nat).
  { intros c Hadm. unfold intLogc_events, occurrences. rewrite Hadm.
    change (EvCall c :: ?l) with ([EvCall c] ++ l).
    rewrite !count_app, !count_record_events; try done.
    unfold count. cbn. by rewrite bool_decide_eq_true_2. }
  split; [| split].
  - intros Hnone format args c. apply admitted_false in Hnone. split.
    + destruct (intLogf_run lvl format args w Hnw) as (w' & Hrun & Hlog & Htr).
      exists w'. split; [done |]. split; [done |].
      rewrite Htr. unfold intLogf_events. rewrite Hnone. apply app_nil_r.
    + destruct (intLogc_run lvl c w Hnw) as (w' & Hrun & Hlog & Htr).
      exists w'. split; [done |]. split; [done |].
      rewrite Htr. unfold intLogc_events. rewrite Hnone. apply app_nil_r.
  - intros Hsome c. apply admitted_true in Hsome.
    destruct (intLogc_run lvl c w Hnw) as (w' & Hrun & _ & Htr).
    exists w', (intLogc_events lvl c w).
    split; [done |]. split; [done |]. by apply Hcalls.
  - intros c.
    destruct (intLogc_run lvl c w Hnw) as (w' & Hrun & _ & Htr).
    exists w', (intLogc_events lvl c w).
    split; [done |]. split; [done |].
    destruct (admitted lvl w) eqn:Hadm.
    + destruct (Hcalls c eq_refl) as [_ ->]. lia.
    + unfold intLogc_events. rewrite Hadm. cbn. lia.
Qed.

(** C9.  [Log], [Logf] and [Logc] leave the filter map as it was, at every
    level and with every argument. *)
Theorem logging_leaves_Filters_unchanged (w : World) (lvl : Level) :
  no_writer w ->
  (forall source message, exists w',
      Log lvl source message w = Done tt w'
      /\ log_Filters (w_log w') = log_Filters (w_log w))
  /\ (forall format args, exists w',
         Logf lvl format args w = Done tt w'
         /\ log_Filters (w_log w') = log_Filters (w_log w))
  /\ (forall c, exists w',
         Logc lvl c w = Done tt w'
         /\ log_Filters (w_log w') = log_Filters (w_log w)).
Proof.
  intros Hnw. split; [| split].
  - intros source message.
    destruct (Log_run lvl source message w Hnw) as (w' & Hrun & Hlog & _).
    exists w'. by rewrite Hlog.
  - intros format args.
    destruct (intLogf_run lvl format args w Hnw) as (w' & Hrun & Hlog & _).
    exists w'. by rewrite Hlog.
  - intros c.
    destruct (intLogc_run lvl c w Hnw) as (w' & Hrun & Hlog & _).
    exists w'. by rewrite Hlog.
Qed.

(** ** [Warn], [Error], [Critical] *)

Lemma over_warning_method lvl (method : value -> list value -> M error) :
  (lvl, method) ∈ [(WARNING, Warn); (ERROR, Error); (CRITICAL, Critical)] ->
  method = overWarning lvl.
Proof.
  intros Hin.
  repeat (apply elem_of_cons in Hin as [Heq | Hin];
          [by injection Heq as -> -> |]).
  by apply elem_of_nil in Hin.
Qed.

Lemma overWarning_log lvl arg0 args (w : World) :
  no_writer w ->
  exists w' new,
    overWarning lvl arg0 args w = Done (errors_New (formatted arg0 args)) w'
    /\ w_log w' = w_log w
    /\ w_trace w' = w_trace w ++ formatting arg0 args ++ new
    /\ new = if admitted lvl w
             then record_events lvl (caller_source 3) (formatted arg0 args)
                    (w_trace w ++ formatting arg0 args) (S (w_iter w))
                    (log_Filters (w_log w))
             else [].
Proof.
  intros Hnw.
  destruct (overWarning_run lvl arg0 args w Hnw) as (w' & Hrun & Hlog & Htr).
  exists w', (intLogf_events lvl (formatted arg0 args) []
                (add_events (formatting arg0 args) w)).
  by rewrite intLogf_events_no_args at 2.
Qed.

Lemma count_is_message_formatting arg0 args :
  count is_message (formatting arg0 args) = 1%nat.
Proof. by destruct arg0. Qed.

Lemma formatting_no_write arg0 args filt rec :
  EvLogWrite filt rec ∉ formatting arg0 args.
Proof.
  intros Hin. destruct arg0; cbn in Hin.
  all: repeat (apply elem_of_cons in Hin as [Heq | Hin]; [discriminate |]).
  all: by apply elem_of_nil in Hin.
Qed.

(** C1, as the code has it.  [Warn], [Error] and [Critical] build their
    message exactly once, whatever the filters are, and hand it to [intLogf]
    once; past that point the admission check of [intLogf] applies: a record
    is made and dispatched exactly once when some filter accepts the level,
    and nothing at all happens when none does. *)
Theorem over_warning_formats_once_logs_when_accepted
  (w : World) (lvl : Level) (method : value -> list value -> M error)
  (arg0 : value) (args : list value) :
  (lvl, method) ∈ [(WARNING, Warn); (ERROR, Error); (CRITICAL, Critical)] ->
  no_writer w ->
  exists err w' new,
    method arg0 args w = Done err w'
    /\ w_trace w' = w_trace w ++ formatting arg0 args ++ new
    /\ count is_message (formatting arg0 args ++ new) = 1%nat
    /\ count is_format new = 0%nat
    /\ (none_accepts (log_Filters (w_log w)) lvl -> new = [])
    /\ (some_accepts (log_Filters (w_log w)) lvl ->
        records_made new = 1%nat
        /\ exists rec,
             rec_Level rec = lvl
             /\ rec_Message rec = formatted arg0 args
             /\ new ≡ₚ EvNow :: deliveries lvl rec
                                  (map_to_list (log_Filters (w_log w)))).
Proof.
  intros Hmethod Hnw. apply over_warning_method in Hmethod as ->.
  destruct (overWarning_log lvl arg0 args w Hnw)
    as (w' & new & Hrun & _ & Htr & Hnew).
  exists (errors_New (formatted arg0 args)), w', new.
  split; [done |]. split; [done |].
  assert (Hcount : forall kind, kind EvNow = false ->
            (forall filt rec, kind (EvLogWrite filt rec) = false) ->
            count kind new = 0%nat).
  { intros kind HNow Hwrite. rewrite Hnew. destruct (admitted lvl w); [| done].
    by apply count_record_events. }
  split; [| split; [| split]].
  - rewrite count_app, count_is_message_formatting, Hcount; done.
  - by apply Hcount.
  - intros Hnone%admitted_false. by rewrite Hnew, Hnone.
  - intros Hsome%admitted_true. rewrite Hnew, Hsome. split.
    + apply records_made_record_events.
    + eexists. split; [| split]; [| | apply record_events_Permutation]; done.
Qed.

(** C6.  [Warn], [Error] and [Critical] return an error whose text is the
    message they built from their arguments, and that text is the message
    of every record they write, whatever the first argument is. *)
Theorem over_warning_returns_the_logged_message
  (w : World) (lvl : Level) (method : value -> list value -> M error)
  (arg0 : value) (args : list value) :
  (lvl, method) ∈ [(WARNING, Warn); (ERROR, Error); (CRITICAL, Critical)] ->
  no_writer w ->
  exists err w' new,
    method arg0 args w = Done err w'
    /\ error_text err = formatted arg0 args
    /\ w_trace w' = w_trace w ++ new
    /\ (forall filt rec, EvLogWrite filt rec ∈ new ->
                         rec_Message rec = error_text err)
    /\ (some_accepts (log_Filters (w_log w)) lvl ->
        exists filt rec, EvLogWrite filt rec ∈ new).
Proof.
  intros Hmethod Hnw. apply over_warning_method in Hmethod as ->.
  destruct (overWarning_log lvl arg0 args w Hnw)
    as (w' & new & Hrun & _ & Htr & Hnew).
  exists (errors_New (formatted arg0 args)), w', (formatting arg0 args ++ new).
  split; [done |]. split; [done |]. split; [done |]. split.
  - intros filt rec Hin. apply elem_of_app in Hin as [Hin | Hin].
    + by apply formatting_no_write in Hin.
    + rewrite Hnew in Hin. destruct (admitted lvl w); [| by apply elem_of_nil in Hin].
      by apply record_events_message in Hin as ->.
  - intros Hsome. pose proof Hsome as (name & filt & Hlook & Hacc).
    apply admitted_true in Hsome. rewrite Hnew, Hsome.
    exists filt. eexists. apply elem_of_app. right.
    by apply (elem_of_record_events _ _ _ _ _ _ name).
Qed.

(** [overWarning] builds its message and then is [intLogf] on that message
    with no arguments. *)
Lemma overWarning_through_intLogf lvl arg0 args (w : World) :
  overWarning lvl arg0 args w
  = (intLogf lvl (formatted arg0 args) [] ;;
     ret (errors_New (formatted arg0 args)))
      (add_events (formatting arg0 args) w).
Proof.
  unfold overWarning.
  destruct arg0 as [first | first | n | b | text].
  all: erewrite bind_Done by reflexivity.
  all: cbn [formatted formatting].
  all: try rewrite add_events_app.
  all: reflexivity.
Qed.

(** C10.  Called without variadic arguments, [intLogf] (and so [Logf] and
    a convenience method given a lone string) applies no formatting function
    and every record it writes carries the format string itself, for every
    implementation of [fmt]; when some filter accepts the level such a
    record is written.  In particular the message [Warn], [Error] and
    [Critical] have built goes through [intLogf] without arguments and is
    written as it is: the world they return is the one that call returns,
    past the events that build the message no formatting function is
    applied, and every filter of the map whose threshold is at most the
    level is written a record that carries that message. *)
Theorem intLogf_without_args_logs_format_verbatim
  (w : World) (lvl : Level) (format : string) :
  no_writer w ->
  (exists w' new,
      intLogf lvl format [] w = Done tt w'
      /\ Logf lvl format [] w = Done tt w'
      /\ upToInfo lvl (VString format) [] w = Done tt w'
      /\ w_trace w' = w_trace w ++ new
      /\ count is_format new = 0%nat
      /\ (forall filt rec, EvLogWrite filt rec ∈ new ->
                           rec_Message rec = format)
      /\ (some_accepts (log_Filters (w_log w)) lvl ->
          exists filt rec, EvLogWrite filt rec ∈ new))
  /\ (forall lvl' method arg0 args,
        (lvl', method)
          ∈ [(WARNING, Warn); (ERROR, Error); (CRITICAL, Critical)] ->
        exists err w' new,
          method arg0 args w = Done err w'
          /\ intLogf lvl' (formatted arg0 args) []
               (add_events (formatting arg0 args) w) = Done tt w'
          /\ w_trace w' = w_trace w ++ formatting arg0 args ++ new
          /\ count is_format new = 0%nat
          /\ (forall filt rec, EvLogWrite filt rec ∈ new ->
                               rec_Message rec = formatted arg0 args)
          /\ (forall name filt,
                log_Filters (w_log w) !! name = Some filt ->
                filt_Level filt <= lvl' ->
                exists rec, EvLogWrite filt rec ∈ new
                            /\ rec_Level rec = lvl'
                            /\ rec_Message rec = formatted arg0 args)
          /\ (some_accepts (log_Filters (w_log w)) lvl' ->
              exists filt rec, EvLogWrite filt rec ∈ new
                               /\ rec_Message rec = formatted arg0 args)).
Proof.
  intros Hnw. split.
  - destruct (intLogf_run lvl format [] w Hnw) as (w' & Hrun & _ & Htr).
    exists w', (intLogf_events lvl format [] w).
    split; [done |]. split; [done |]. split; [done |]. split; [done |].
    rewrite intLogf_events_no_args.
    destruct (admitted lvl w) eqn:Hadm.
    + split; [by apply count_record_events |]. split.
      * intros filt rec Hin. by apply record_events_message in Hin as ->.
      * intros (name & filt & Hlook & Hacc). exists filt. eexists.
        by apply (elem_of_record_events _ _ _ _ _ _ name).
    + split; [done |]. split.
      * intros filt rec Hin. by apply elem_of_nil in Hin.
      * intros Hsome%admitted_true. congruence.
  - intros lvl' method arg0 args Hmethod.
    apply over_warning_method in Hmethod as ->.
    assert (Hnw' : no_writer (add_events (formatting arg0 args) w)) by done.
    destruct (intLogf_run lvl' (formatted arg0 args) []
                (add_events (formatting arg0 args) w) Hnw')
      as (w' & Hrun & _ & Htr).
    rewrite intLogf_events_no_args in Htr.
    exists (errors_New (formatted arg0 args)), w',
      (if admitted lvl' w
       then record_events lvl' (caller_source 3) (formatted arg0 args)
              (w_trace w ++ formatting arg0 args) (S (w_iter w))
              (log_Filters (w_log w))
       else []).
    split.
    { rewrite overWarning_through_intLogf.
      by rewrite (bind_Done _ _ _ _ _ Hrun). }
    split; [done |].
    split; [rewrite Htr; cbn; by rewrite <- app_assoc |].
    assert (Hreach : forall name filt,
              log_Filters (w_log w) !! name = Some filt ->
              filt_Level filt <= lvl' ->
              admitted lvl' w = true
              /\ EvLogWrite filt
                    (record_of lvl' (caller_source 3) (formatted arg0 args)
                       (w_trace w ++ formatting arg0 args))
                  ∈ record_events lvl' (caller_source 3) (formatted arg0 args)
                      (w_trace w ++ formatting arg0 args) (S (w_iter w))
                      (log_Filters (w_log w))).
    { intros name filt Hlook Hacc. split.
      - apply admitted_true. by exists name, filt.
      - by apply (elem_of_record_events _ _ _ _ _ _ name). }
    split; [| split; [| split]].
    + destruct (admitted lvl' w); [by apply count_record_events | done].
    + intros filt rec Hin.
      destruct (admitted lvl' w); [| by apply elem_of_nil in Hin].
      by apply record_events_message in Hin as ->.
    + intros name filt Hlook Hacc.
      destruct (Hreach name filt Hlook Hacc) as [-> Hin].
      eexists. split; [exact Hin |]. done.
    + intros (name & filt & Hlook & Hacc).
      destruct (Hreach name filt Hlook Hacc) as [-> Hin].
      exists filt. eexists. split; [exact Hin |]. done.
Qed.

(** ** [Close] and [AddFilter] *)

Lemma none_accepts_empty lvl : none_accepts ∅ lvl.
Proof. intros name filt Hlook. by rewrite lookup_empty in Hlook. Qed.

(** C7.  From a logger nobody holds, [Close] returns with an empty filter
    map, having called [Close] through every filter of the map, once each
    and nothing else; the lock is free again.  From then on, as long as the
    logger is the closed one ([AddFilter] has not been called), every [Log]
    at any level returns without an event and leaves the logger closed, so
    the same holds for the call after it. *)
Theorem Close_empties_and_later_Log_is_noop (w : World) :
  idle w ->
  exists w' closed,
    Close w = Done tt w'
    /\ log_Filters (w_log w') = ∅
    /\ idle w'
    /\ w_trace w' = w_trace w ++ closed
    /\ closed ≡ₚ EvClose <$> (map_to_list (log_Filters (w_log w))).*2
    /\ (forall name filt, log_Filters (w_log w) !! name = Some filt ->
                          EvClose filt ∈ closed)
    /\ (forall later lvl source message,
          w_log later = w_log w' ->
          exists w'',
            Log lvl source message later = Done tt w''
            /\ w_trace w'' = w_trace later
            /\ w_log w'' = w_log w').
Proof.
  intros Hidle.
  destruct (Close_run w Hidle) as (w' & Hrun & Hlog & Htr).
  exists w', (EvClose <$> (range_order (w_iter w) (log_Filters (w_log w))).*2).
  split; [done |]. split; [by rewrite Hlog |]. split; [unfold idle; by rewrite Hlog |].
  split; [done |]. split; [by rewrite (range_order_perm _ _) |]. split.
  - intros name filt Hlook. apply list_elem_of_fmap. exists filt. split; [done |].
    apply list_elem_of_fmap. exists (name, filt). split; [done |].
    by apply range_order_lookup.
  - intros later lvl source message Hlater. rewrite Hlog in Hlater.
    assert (Hnw : no_writer later) by (unfold no_writer; by rewrite Hlater).
    destruct (Log_run lvl source message later Hnw)
      as (w'' & Hrun' & Hlog' & Htr').
    exists w''. split; [done |]. split; [| by rewrite Hlog', Hlater, Hlog].
    rewrite Htr'. unfold Log_events.
    assert (Hadm : admitted lvl later = false).
    { apply admitted_false. rewrite Hlater. apply none_accepts_empty. }
    rewrite Hadm. apply app_nil_r.
Qed.

(** C8.  Two calls of [AddFilter] with one name leave, under that name, the
    filter of the second call and nothing of the first: the map is the one
    the second call alone would have produced, so it has as many entries as
    after the first call, and the other names are untouched.  Neither call
    leaves an event, so no [Close] reaches the sink that was replaced. *)
Theorem AddFilter_twice_replaces_without_closing
  (w : World) (name : string) (lvl1 lvl2 : Level) (writer1 writer2 : LogWriter) :
  exists w1 w2,
    AddFilter name lvl1 writer1 w = Done tt w1
    /\ AddFilter name lvl2 writer2 w1 = Done tt w2
    /\ (AddFilter name lvl1 writer1 ;; AddFilter name lvl2 writer2) w
       = Done tt w2
    /\ log_Filters (w_log w2) !! name
       = Some {| filt_Level := lvl2; filt_LogWriter := writer2 |}
    /\ log_Filters (w_log w2)
       = <[name := {| filt_Level := lvl2; filt_LogWriter := writer2 |}]>
           (log_Filters (w_log w))
    /\ size (log_Filters (w_log w2)) = size (log_Filters (w_log w1))
    /\ w_trace w1 = w_trace w
    /\ w_trace w2 = w_trace w.
Proof.
  eexists _, _. split; [apply AddFilter_run |]. split; [apply AddFilter_run |].
  split; [reflexivity |]. cbn.
  split; [apply lookup_insert_eq |]. split; [apply insert_insert_eq |].
  split; [| done].
  rewrite insert_insert_eq, !map_size_insert.
  by destruct (log_Filters (w_log w) !! name).
Qed.

End LoggerFacts.

(** ** The default case on the [fmt] fragment *)

Lemma append_nil_r (s : string) : s +:+ "" = s.
Proof.
  induction s as [| c s IH]; [done |].
  change (String c (s +:+ "") = String c s). by rewrite IH.
Qed.

Lemma doPrintf_plain_char (c : ascii) (rest : string) (a : list value) :
  c <> "%"%char -> doPrintf (String c rest) a = String c (doPrintf rest a).
Proof. intros Hc. cbn [doPrintf]. by destruct (decide (c = "%"%char)). Qed.

Lemma joined_cons (x : value) (rest : list value) :
  joined (x :: rest) = fmt_v x +:+ spaced rest.
Proof.
  induction rest as [| y rest IH] in x |- *.
  - cbn [joined spaced]. by rewrite append_nil_r.
  - change (joined (x :: y :: rest)) with (fmt_v x +:+ " " +:+ joined (y :: rest)).
    by rewrite IH.
Qed.

Lemma doPrintf_Repeat_v (a : list value) :
  doPrintf (strings_Repeat " %v" (length a)) a = spaced a.
Proof.
  induction a as [| x rest IH]; [done |].
  cbn [spaced]. by rewrite <- IH.
Qed.

Lemma doPrintf_plain_prefix (s : string) (a : list value) :
  has_percent s = false ->
  doPrintf (s +:+ strings_Repeat " %v" (length a)) a = s +:+ spaced a.
Proof.
  induction s as [| c s IH]; intros Hplain.
  - apply doPrintf_Repeat_v.
  - cbn [has_percent] in Hplain.
    destruct (decide (c = "%"%char)) as [| Hc]; [done |].
    change (String c s +:+ ?t) with (String c (s +:+ t)).
    by rewrite doPrintf_plain_char, IH.
Qed.

(** Where the rendering of the first argument holds no ['%'], the default
    case does build the arguments joined by single spaces. *)
Lemma default_case_joined_without_percent (arg0 : value) (args : list value) :
  isString arg0 = false ->
  (forall c, arg0 <> VFunc c) ->
  has_percent (fmt_v arg0) = false ->
  @formatted go_runtime arg0 args = joined (arg0 :: args).
Proof.
  intros Hstr Hfunc Hplain. rewrite joined_cons.
  destruct arg0 as [first | first | n | b | text];
    [done | by destruct (Hfunc first) | | |].
  all: cbn [formatted fmt_Sprintf fmt_Sprint go_runtime go_Sprintf go_Sprint doPrint].
  all: rewrite append_nil_r; by apply doPrintf_plain_prefix.
Qed.

(** * The code at concrete inputs *)

Section Examples.
#[local] Existing Instance go_runtime.

(** ** Dispatch on [{"a": DEBUG, "b": ERROR}] *)

Example dispatch_WARNING_reaches_a_only :
  trace_of (dispatchLogsForLogRecord WARNING sample_record) (world_of logger_ab)
  = Some [EvLogWrite filter_a sample_record].
Proof. vm_compute. reflexivity. Qed.

Example dispatch_CRITICAL_reaches_both :
  trace_of (dispatchLogsForLogRecord CRITICAL sample_record) (world_of logger_ab)
  = Some [EvLogWrite filter_a sample_record; EvLogWrite filter_b sample_record].
Proof. vm_compute. reflexivity. Qed.

Example dispatch_at_threshold_is_delivered :
  trace_of (dispatchLogsForLogRecord ERROR sample_record) (world_of logger_b)
  = Some [EvLogWrite filter_b sample_record].
Proof. vm_compute. reflexivity. Qed.

Lemma dispatch_delivers_iff_threshold_le_level_witness :
  log_Filters (w_log (world_of logger_ab)) !! "a" = Some filter_a
  /\ log_Filters (w_log (world_of logger_ab)) !! "b" = Some filter_b
  /\ no_writer (world_of logger_ab)
  /\ (exists w' new,
        dispatchLogsForLogRecord WARNING sample_record (world_of logger_ab)
        = Done tt w'
        /\ w_trace w' = w_trace (world_of logger_ab) ++ new
        /\ EvLogWrite filter_a sample_record ∈ new)
  /\ (exists w' new,
        dispatchLogsForLogRecord WARNING sample_record (world_of logger_ab)
        = Done tt w'
        /\ w_trace w' = w_trace (world_of logger_ab) ++ new
        /\ EvLogWrite filter_b sample_record ∉ new).
Proof.
  assert (Ha : log_Filters (w_log (world_of logger_ab)) !! "a" = Some filter_a)
    by reflexivity.
  assert (Hb : log_Filters (w_log (world_of logger_ab)) !! "b" = Some filter_b)
    by reflexivity.
  assert (Hnw : no_writer (world_of logger_ab)) by reflexivity.
  split; [exact Ha |]. split; [exact Hb |]. split; [exact Hnw |]. split.
  - destruct (dispatch_delivers_iff_threshold_le_level
                (world_of logger_ab) WARNING sample_record "a" filter_a Ha Hnw)
      as [(w' & new & Hrun & Htr & Hiff & _) _].
    exists w', new. split; [exact Hrun |]. split; [exact Htr |].
    apply Hiff. vm_compute. discriminate.
  - destruct (dispatch_delivers_iff_threshold_le_level
                (world_of logger_ab) WARNING sample_record "b" filter_b Hb Hnw)
      as [(w' & new & Hrun & Htr & Hiff & _) _].
    exists w', new. split; [exact Hrun |]. split; [exact Htr |].
    intros Hin. apply Hiff in Hin. vm_compute in Hin. by apply Hin.
Defined.

(** ** Which sample logger accepts what *)

Lemma none_accepts_by_evaluation (m : Filters) (lvl : Level) :
  shouldSkip_loop lvl (map_to_list m) = true -> none_accepts m lvl.
Proof. by apply shouldSkip_loop_none. Qed.

Lemma logger_ab_accepts_WARNING :
  some_accepts (log_Filters (w_log (world_of logger_ab))) WARNING.
Proof. exists "a", filter_a. split; [reflexivity |]. vm_compute. discriminate. Qed.

Lemma logger_ab_rejects_FINEST :
  none_accepts (log_Filters (w_log (world_of logger_ab))) FINEST.
Proof. apply none_accepts_by_evaluation. vm_compute. reflexivity. Qed.

Lemma logger_b_rejects_WARNING :
  none_accepts (log_Filters (w_log (world_of logger_b))) WARNING.
Proof. apply none_accepts_by_evaluation. vm_compute. reflexivity. Qed.

(** ** [Logf] and [Logc] below and above the thresholds *)

Example Logf_FINEST_is_skipped :
  trace_of (Logf FINEST "%d files" [VInt 3]) (world_of logger_ab) = Some [].
Proof. vm_compute. reflexivity. Qed.

Example Logc_FINEST_is_skipped :
  trace_of (Logc FINEST sample_closure) (world_of logger_ab) = Some [].
Proof. vm_compute. reflexivity. Qed.

Example Logc_WARNING_calls_once :
  trace_of (Logc WARNING sample_closure) (world_of logger_ab)
  = Some [EvCall sample_closure; EvNow;
          EvLogWrite filter_a
            {| rec_Level := WARNING; rec_Created := 1700000001;
               rec_Source := "main.main:42"; rec_Message := "lazily built" |}].
Proof. vm_compute. reflexivity. Qed.

Lemma Logf_Logc_skip_when_unaccepted_witness :
  no_writer (world_of logger_ab)
  /\ none_accepts (log_Filters (w_log (world_of logger_ab))) FINEST
  /\ some_accepts (log_Filters (w_log (world_of logger_ab))) WARNING
  /\ (exists w', Logf FINEST "%d files" [VInt 3] (world_of logger_ab) = Done tt w'
                 /\ w_trace w' = w_trace (world_of logger_ab))
  /\ (exists w', Logc FINEST sample_closure (world_of logger_ab) = Done tt w'
                 /\ w_trace w' = w_trace (world_of logger_ab))
  /\ (exists w' new, Logc WARNING sample_closure (world_of logger_ab) = Done tt w'
                     /\ w_trace w' = w_trace (world_of logger_ab) ++ new
                     /\ occurrences (EvCall sample_closure) new = 1%nat).
Proof.
  assert (Hnw : no_writer (world_of logger_ab)) by reflexivity.
  split; [exact Hnw |]. split; [exact logger_ab_rejects_FINEST |].
  split; [exact logger_ab_accepts_WARNING |].
  destruct (Logf_Logc_skip_when_unaccepted (world_of logger_ab) FINEST Hnw)
    as (Hskip & _ & _).
  destruct (Hskip logger_ab_rejects_FINEST "%d files" [VInt 3] sample_closure)
    as [(wf & Hf & _ & Hftr) (wc & Hc & _ & Hctr)].
  destruct (Logf_Logc_skip_when_unaccepted (world_of logger_ab) WARNING Hnw)
    as (_ & Hcall & _).
  destruct (Hcall logger_ab_accepts_WARNING sample_closure)
    as (w' & new & Hrun & Htr & Hocc & _).
  split; [by exists wf |]. split; [by exists wc |]. by exists w', new.
Defined.

(** ** The filter map across logging calls *)

Lemma logging_leaves_Filters_unchanged_witness :
  no_writer (world_of logger_ab)
  /\ (exists w', Log CRITICAL "main.main:7" "disk full" (world_of logger_ab)
                 = Done tt w'
                 /\ log_Filters (w_log w') = log_Filters logger_ab)
  /\ (exists w', Logf WARNING "%d files" [VInt 3] (world_of logger_ab)
                 = Done tt w'
                 /\ log_Filters (w_log w') = log_Filters logger_ab)
  /\ (exists w', Logc FINEST sample_closure (world_of logger_ab) = Done tt w'
                 /\ log_Filters (w_log w') = log_Filters logger_ab).
Proof.
  assert (Hnw : no_writer (world_of logger_ab)) by reflexivity.
  split; [exact Hnw |].
  split; [| split].
  - destruct (logging_leaves_Filters_unchanged (world_of logger_ab) CRITICAL Hnw)
      as (HLog & _ & _).
    exact (HLog "main.main:7" "disk full").
  - destruct (logging_leaves_Filters_unchanged (world_of logger_ab) WARNING Hnw)
      as (_ & HLogf & _).
    exact (HLogf "%d files" [VInt 3]).
  - destruct (logging_leaves_Filters_unchanged (world_of logger_ab) FINEST Hnw)
      as (_ & _ & HLogc).
    exact (HLogc sample_closure).
Defined.

(** ** [Warn], [Error], [Critical] at concrete inputs *)

Example Warn_accepted :
  trace_of (Warn (VString "disk %d%% full") [VInt 93]) (world_of logger_ab)
  = Some [EvSprintf "disk %d%% full" [VInt 93]; EvNow;
          EvLogWrite filter_a
            {| rec_Level := WARNING; rec_Created := 1700000001;
               rec_Source := "main.main:42"; rec_Message := "disk 93% full" |}]
  /\ returned (Warn (VString "disk %d%% full") [VInt 93]) (world_of logger_ab)
     = Some (errors_New "disk 93% full").
Proof. split; vm_compute; reflexivity. Qed.

(** C1, as the specification states it, fails.  On a logger whose only filter
    starts at [ERROR], [Warn] builds its message and then returns from
    [intLogf] at the admission check: no record is made, nothing is
    dispatched. *)
Lemma Warn_below_every_threshold_is_not_dispatched :
  no_writer (world_of logger_b)
  /\ trace_of (Warn (VString "disk full") []) (world_of logger_b)
     = Some [EvSprintf "disk full" []]
  /\ ~ (exists err w' new,
          Warn (VString "disk full") [] (world_of logger_b) = Done err w'
          /\ w_trace w' = w_trace (world_of logger_b)
                          ++ formatting (VString "disk full") [] ++ new
          /\ records_made new = 1%nat).
Proof.
  split; [reflexivity |]. split; [vm_compute; reflexivity |].
  intros (err & w' & new & Hrun & Htr & Hrec).
  vm_compute in Hrun. injection Hrun as _ <-.
  cbn in Htr. injection Htr as <-. vm_compute in Hrec. discriminate.
Qed.

Lemma over_warning_formats_once_logs_when_accepted_witness :
  (WARNING, Warn) ∈ [(WARNING, Warn); (ERROR, Error); (CRITICAL, Critical)]
  /\ no_writer (world_of logger_ab)
  /\ no_writer (world_of logger_b)
  /\ (exists err w' new,
        Warn (VString "disk %d%% full") [VInt 93] (world_of logger_ab)
        = Done err w'
        /\ count is_message
             (formatting (VString "disk %d%% full") [VInt 93] ++ new) = 1%nat
        /\ records_made new = 1%nat)
  /\ (exists err w' new,
        Warn (VString "disk %d%% full") [VInt 93] (world_of logger_b)
        = Done err w'
        /\ count is_message
             (formatting (VString "disk %d%% full") [VInt 93] ++ new) = 1%nat
        /\ new = []).
Proof.
  assert (Hm : (WARNING, Warn)
               ∈ [(WARNING, Warn); (ERROR, Error); (CRITICAL, Critical)])
    by apply list_elem_of_here.
  assert (Hab : no_writer (world_of logger_ab)) by reflexivity.
  assert (Hb : no_writer (world_of logger_b)) by reflexivity.
  split; [exact Hm |]. split; [exact Hab |]. split; [exact Hb |]. split.
  - destruct (over_warning_formats_once_logs_when_accepted
                (world_of logger_ab) WARNING Warn
                (VString "disk %d%% full") [VInt 93] Hm Hab)
      as (err & w' & new & Hrun & _ & Hmsg & _ & _ & Hsome).
    destruct (Hsome logger_ab_accepts_WARNING) as [Hrec _].
    by exists err, w', new.
  - destruct (over_warning_formats_once_logs_when_accepted
                (world_of logger_b) WARNING Warn
                (VString "disk %d%% full") [VInt 93] Hm Hb)
      as (err & w' & new & Hrun & _ & Hmsg & _ & Hnone & _).
    specialize (Hnone logger_b_rejects_WARNING).
    by exists err, w', new.
Defined.

Lemma over_warning_returns_the_logged_message_witness :
  (CRITICAL, Critical)
    ∈ [(WARNING, Warn); (ERROR, Error); (CRITICAL, Critical)]
  /\ no_writer (world_of logger_ab)
  /\ exists err w' new,
       Critical (VFunc sample_closure) [] (world_of logger_ab) = Done err w'
       /\ error_text err = "lazily built"
       /\ w_trace w' = w_trace (world_of logger_ab) ++ new
       /\ (forall filt rec, EvLogWrite filt rec ∈ new ->
                            rec_Message rec = error_text err).
Proof.
  assert (Hm : (CRITICAL, Critical)
               ∈ [(WARNING, Warn); (ERROR, Error); (CRITICAL, Critical)]).
  { apply list_elem_of_further, list_elem_of_further, list_elem_of_here. }
  assert (Hnw : no_writer (world_of logger_ab)) by reflexivity.
  split; [exact Hm |]. split; [exact Hnw |].
  destruct (over_warning_returns_the_logged_message
              (world_of logger_ab) CRITICAL Critical (VFunc sample_closure) []
              Hm Hnw)
    as (err & w' & new & Hrun & Herr & Htr & Hmsg & _).
  by exists err, w', new.
Defined.

Example Critical_returns_what_it_logs :
  returned (Critical (VFunc sample_closure) []) (world_of logger_ab)
  = Some (errors_New "lazily built")
  /\ (messages_written
        <$> trace_of (Critical (VFunc sample_closure) []) (world_of logger_ab))
     = Some ["lazily built"; "lazily built"].
Proof. split; vm_compute; reflexivity. Qed.

(** ** A message passed without arguments *)

Example Logf_percent_without_args :
  messages_written
    <$> trace_of (Logf ERROR "100% done, %d left" []) (world_of logger_b)
  = Some ["100% done, %d left"].
Proof. vm_compute. reflexivity. Qed.

Example Error_percent_is_formatted_once :
  returned (Error (VString "load at 100%%") []) (world_of logger_b)
  = Some (errors_New "load at 100%")
  /\ (messages_written
        <$> trace_of (Error (VString "load at 100%%") []) (world_of logger_b))
     = Some ["load at 100%"].
Proof. split; vm_compute; reflexivity. Qed.

Lemma intLogf_without_args_logs_format_verbatim_witness :
  no_writer (world_of logger_b)
  /\ (ERROR, Error) ∈ [(WARNING, Warn); (ERROR, Error); (CRITICAL, Critical)]
  /\ (exists w' new,
        intLogf ERROR "100% done, %d left" [] (world_of logger_b) = Done tt w'
        /\ w_trace w' = w_trace (world_of logger_b) ++ new
        /\ count is_format new = 0%nat
        /\ (forall filt rec, EvLogWrite filt rec ∈ new ->
                             rec_Message rec = "100% done, %d left"))
  /\ (exists err w' new,
        Error (VString "load at 100%%") [] (world_of logger_b) = Done err w'
        /\ w_trace w' = w_trace (world_of logger_b)
                        ++ formatting (VString "load at 100%%") [] ++ new
        /\ count is_format new = 0%nat
        /\ (forall filt rec, EvLogWrite filt rec ∈ new ->
                             rec_Message rec = "load at 100%")
        /\ (exists rec, EvLogWrite filter_b rec ∈ new
                        /\ rec_Level rec = ERROR
                        /\ rec_Message rec = "load at 100%")).
Proof.
  assert (Hnw : no_writer (world_of logger_b)) by reflexivity.
  assert (Hm : (ERROR, Error)
               ∈ [(WARNING, Warn); (ERROR, Error); (CRITICAL, Critical)]).
  { apply list_elem_of_further, list_elem_of_here. }
  split; [exact Hnw |]. split; [exact Hm |].
  destruct (intLogf_without_args_logs_format_verbatim
              (world_of logger_b) ERROR "100% done, %d left" Hnw)
    as [(w' & new & Hrun & _ & _ & Htr & Hfmt & Hmsg & _) Hover].
  split; [by exists w', new |].
  destruct (Hover ERROR Error (VString "load at 100%%") [] Hm)
    as (err & w'' & new' & Hrun' & _ & Htr' & Hfmt' & Hmsg' & Hreach & _).
  assert (Hacc : filt_Level filter_b <= ERROR) by (vm_compute; discriminate).
  destruct (Hreach "b" filter_b eq_refl Hacc) as (rec & Hin & Hlvl & Hrec).
  exists err, w'', new'.
  split; [exact Hrun' |]. split; [exact Htr' |]. split; [exact Hfmt' |].
  split; [exact Hmsg' |]. exists rec.
  split; [exact Hin |]. split; [exact Hlvl |]. exact Hrec.
Defined.

(** ** [Close] *)

Example Close_then_Log :
  trace_of (Close ;; Log CRITICAL "main.main:7" "disk full") (world_of logger_ab)
  = Some [EvClose filter_a; EvClose filter_b].
Proof. vm_compute. reflexivity. Qed.

Lemma Close_empties_and_later_Log_is_noop_witness :
  idle (world_of logger_ab)
  /\ exists w' closed,
       Close (world_of logger_ab) = Done tt w'
       /\ log_Filters (w_log w') = ∅
       /\ w_trace w' = w_trace (world_of logger_ab) ++ closed
       /\ EvClose filter_a ∈ closed
       /\ EvClose filter_b ∈ closed
       /\ exists w'',
            Log CRITICAL "main.main:7" "disk full" w' = Done tt w''
            /\ w_trace w'' = w_trace w'.
Proof.
  assert (Hidle : idle (world_of logger_ab)) by reflexivity.
  split; [exact Hidle |].
  destruct (Close_empties_and_later_Log_is_noop (world_of logger_ab) Hidle)
    as (w' & closed & Hrun & Hempty & _ & Htr & _ & Hall & HLog).
  exists w', closed.
  split; [exact Hrun |]. split; [exact Hempty |]. split; [exact Htr |].
  split; [by apply (Hall "a") |]. split; [by apply (Hall "b") |].
  destruct (HLog w' CRITICAL "main.main:7" "disk full" eq_refl)
    as (w'' & Hrun' & Htr' & _).
  by exists w''.
Defined.

(** ** [AddFilter] *)

Example AddFilter_twice :
  (fun w => map_to_list (log_Filters (w_log w)))
    <$> (match (AddFilter "a" DEBUG 1%N ;; AddFilter "a" ERROR 2%N)
                 (world_of NewLogger)
         with Done _ w => Some w | _ => None end)
  = Some [("a", {| filt_Level := ERROR; filt_LogWriter := 2%N |})]
  /\ trace_of (AddFilter "a" DEBUG 1%N ;; AddFilter "a" ERROR 2%N)
       (world_of NewLogger) = Some [].
Proof. split; vm_compute; reflexivity. Qed.

(** ** The default case and a ['%'] in the first argument *)

(** C5.  The default case pastes [fmt.Sprint(arg0)] into a format string, so
    a ['%'] in the rendering of the first argument is read as the start of
    a verb.  [Warn(errors.New("100%"))] yields "100%!(NOVERB)" where each
    argument rendered with [%v] and joined by spaces is "100%";
    [Info(errors.New("%d"), 5)] writes "5 %!v(MISSING)" where the joined
    rendering is "%d 5". *)
Theorem default_case_reads_percent_of_first_argument_as_verb :
  returned (Warn (VError "100%") []) (world_of logger_ab)
  = Some (errors_New "100%!(NOVERB)")
  /\ joined [VError "100%"] = "100%"
  /\ (messages_written
        <$> trace_of (Info (VError "%d") [VInt 5]) (world_of logger_ab))
     = Some ["5 %!v(MISSING)"]
  /\ joined [VError "%d"; VInt 5] = "%d 5".
Proof. repeat split; vm_compute; reflexivity. Qed.

End Examples.

(** * Further facts *)

(** ** [Level.String] on the whole of its domain *)

(** X1.  For the eight levels [FINEST] to [CRITICAL], [String] returns an
    abbreviation of four characters that is not "UNKNOWN", and two levels
    with the same abbreviation are the same level. *)
Theorem Level_String_abbreviations_distinct (l l' : Level) :
  0 <= l < 8 -> 0 <= l' < 8 ->
  exists s s',
    Level_String l = Returns s
    /\ Level_String l' = Returns s'
    /\ String.length s = 4%nat
    /\ s <> "UNKNOWN"
    /\ (s = s' -> l = l').
Proof.
  intros Hl Hl'.
  assert (Hc : l = 0 \/ l = 1 \/ l = 2 \/ l = 3 \/ l = 4 \/ l = 5
               \/ l = 6 \/ l = 7) by lia.
  assert (Hc' : l' = 0 \/ l' = 1 \/ l' = 2 \/ l' = 3 \/ l' = 4 \/ l' = 5
                \/ l' = 6 \/ l' = 7) by lia.
  destruct Hc as [-> | [-> | [-> | [-> | [-> | [-> | [-> | ->]]]]]]];
    destruct Hc' as [-> | [-> | [-> | [-> | [-> | [-> | [-> | ->]]]]]]];
    eexists _, _;
    (split; [reflexivity |]); (split; [reflexivity |]);
    (split; [reflexivity |]); (split; [discriminate |]);
    first [reflexivity | discriminate].
Qed.

(** X2.  [String] panics at exactly one level, the length of
    [levelStrings]; it returns "UNKNOWN" exactly below [FINEST] and above
    that level. *)
Theorem Level_String_panics_only_at_length (l : Level) :
  (Level_String l = Panics "index out of range"
   <-> l = Z.of_nat (length levelStrings))
  /\ (Level_String l = Returns "UNKNOWN" <-> l < 0 \/ 8 < l).
Proof.
  destruct (Z_lt_dec l 0) as [Hneg | Hnn].
  { rewrite Level_String_negative by done. cbn. split; split; try done; lia. }
  destruct (Z_lt_dec 8 l) as [Habove | Hle].
  { rewrite Level_String_above by done. cbn. split; split; try done; lia. }
  destruct (Z.eq_dec l 8) as [-> | Hne].
  { split; split; try done; cbn; lia. }
  assert (Hc : l = 0 \/ l = 1 \/ l = 2 \/ l = 3 \/ l = 4 \/ l = 5
               \/ l = 6 \/ l = 7) by lia.
  destruct Hc as [-> | [-> | [-> | [-> | [-> | [-> | [-> | ->]]]]]]];
    cbn; split; split; first [discriminate | lia].
Qed.

Section FurtherLoggerFacts.
Context {rt : Runtime}.

(** ** The admission check on its own *)

(** X3.  [shouldSkip] answers true exactly when no filter of the map has a
    threshold at most the level, false exactly when some filter has one,
    whatever the order in which the map is visited; it takes no lock and
    leaves the logger and the trace as they were. *)
Theorem shouldSkip_true_iff_none_accepts (w : World) (lvl : Level) :
  exists skip w',
    shouldSkip lvl w = Done skip w'
    /\ w_log w' = w_log w
    /\ w_trace w' = w_trace w
    /\ (skip = true <-> none_accepts (log_Filters (w_log w)) lvl)
    /\ (skip = false <-> some_accepts (log_Filters (w_log w)) lvl).
Proof.
  rewrite shouldSkip_run. eexists _, _. split; [reflexivity |].
  split; [done |]. split; [done |]. split.
  - apply shouldSkip_loop_none, range_order_perm.
  - apply shouldSkip_loop_some, range_order_perm.
Qed.

(** ** [Close] again *)

Lemma range_order_empty (n : nat) : range_order n ∅ = [].
Proof.
  apply Permutation_nil_r. rewrite (range_order_perm n ∅).
  by rewrite map_to_list_empty.
Qed.

(** X4.  A second [Close] finds nothing to close: it returns with the
    logger and the trace as the first [Close] left them. *)
Theorem Close_twice_closes_once (w : World) :
  idle w ->
  exists w1 w2,
    Close w = Done tt w1
    /\ Close w1 = Done tt w2
    /\ (Close ;; Close) w = Done tt w2
    /\ w_log w2 = w_log w1
    /\ w_trace w2 = w_trace w1.
Proof.
  intros Hidle.
  destruct (Close_run w Hidle) as (w1 & Hrun1 & Hlog1 & Htr1).
  assert (Hidle1 : idle w1) by (unfold idle; by rewrite Hlog1).
  destruct (Close_run w1 Hidle1) as (w2 & Hrun2 & Hlog2 & Htr2).
  exists w1, w2. split; [done |]. split; [done |].
  split; [by rewrite (bind_Done _ _ _ _ _ Hrun1) |].
  split; [by rewrite Hlog2, Hlog1 |].
  rewrite Htr2, Hlog1. cbn [NewLogger log_Filters].
  rewrite range_order_empty. apply app_nil_r.
Qed.

(** ** What a logging call writes, and through which filters *)

Lemma write_in_record_events lvl source message tr n (fs : Filters) filt rec :
  EvLogWrite filt rec ∈ record_events lvl source message tr n fs
  <-> rec = record_of lvl source message tr
      /\ filt_Level filt <= lvl
      /\ exists name, fs !! name = Some filt.
Proof.
  unfold record_events. rewrite elem_of_cons, elem_of_deliveries.
  unfold accepts. split.
  - intros [Heq | (-> & Hacc & name & Hin)]; [done |].
    split; [done |]. split; [done |]. exists name.
    by apply (range_order_lookup n fs (name, filt)).
  - intros (-> & Hacc & name & Hlook). right.
    split; [done |]. split; [done |]. exists name.
    by apply (range_order_lookup n fs (name, filt)).
Qed.

Lemma close_not_in_record_events lvl source message tr n (fs : Filters) filt :
  EvClose filt ∉ record_events lvl source message tr n fs.
Proof.
  unfold record_events, deliveries. intros Hin.
  apply elem_of_cons in Hin as [Heq | Hin]; [done |].
  apply list_elem_of_fmap in Hin as (nf & Heq & _). done.
Qed.

(** The writes of [intLogf] and [intLogc], read off their events. *)
Lemma write_in_intLogf_events lvl format args (w : World) filt rec :
  EvLogWrite filt rec ∈ intLogf_events lvl format args w ->
  rec_Level rec = lvl
  /\ rec_Source rec = caller_source 3
  /\ rec_Message rec
     = (if (0 <? length args)%nat then fmt_Sprintf format args else format)
  /\ filt_Level filt <= lvl
  /\ exists name, log_Filters (w_log w) !! name = Some filt.
Proof.
  unfold intLogf_events. intros Hin.
  destruct (admitted lvl w); [| by apply elem_of_nil in Hin].
  destruct (0 <? length args)%nat.
  - apply elem_of_cons in Hin as [Heq | Hin]; [done |].
    by apply write_in_record_events in Hin as (-> & Hacc & Hname).
  - by apply write_in_record_events in Hin as (-> & Hacc & Hname).
Qed.

Lemma write_in_intLogc_events lvl c (w : World) filt rec :
  EvLogWrite filt rec ∈ intLogc_events lvl c w ->
  rec_Level rec = lvl
  /\ rec_Source rec = caller_source 2
  /\ rec_Message rec = closure_returns c
  /\ filt_Level filt <= lvl
  /\ exists name, log_Filters (w_log w) !! name = Some filt.
Proof.
  unfold intLogc_events. intros Hin.
  destruct (admitted lvl w); [| by apply elem_of_nil in Hin].
  apply elem_of_cons in Hin as [Heq | Hin]; [done |].
  by apply write_in_record_events in Hin as (-> & Hacc & Hname).
Qed.

Lemma intLogf_events_reach lvl format args (w : World) name filt :
  log_Filters (w_log w) !! name = Some filt ->
  filt_Level filt <= lvl ->
  exists rec, EvLogWrite filt rec ∈ intLogf_events lvl format args w.
Proof.
  intros Hlook Hacc. unfold intLogf_events.
  assert (Hadm : admitted lvl w = true).
  { apply admitted_true. by exists name, filt. }
  rewrite Hadm. destruct (0 <? length args)%nat; eexists.
  - apply list_elem_of_further, write_in_record_events. eauto.
  - apply write_in_record_events. eauto.
Qed.

Lemma intLogc_events_reach lvl c (w : World) name filt :
  log_Filters (w_log w) !! name = Some filt ->
  filt_Level filt <= lvl ->
  exists rec, EvLogWrite filt rec ∈ intLogc_events lvl c w.
Proof.
  intros Hlook Hacc. unfold intLogc_events.
  assert (Hadm : admitted lvl w = true).
  { apply admitted_true. by exists name, filt. }
  rewrite Hadm. eexists.
  apply list_elem_of_further, write_in_record_events. eauto.
Qed.

Lemma write_in_upToInfo_events lvl arg0 args (w : World) filt rec :
  EvLogWrite filt rec ∈ upToInfo_events lvl arg0 args w ->
  rec_Level rec = lvl
  /\ rec_Message rec = upToInfo_message arg0 args
  /\ filt_Level filt <= lvl
  /\ exists name, log_Filters (w_log w) !! name = Some filt.
Proof.
  unfold upToInfo_events, upToInfo_message. intros Hin.
  destruct arg0 as [first | first | n | b | text].
  1: by apply write_in_intLogf_events in Hin as (? & _ & ? & ? & ?).
  1: by apply write_in_intLogc_events in Hin as (? & _ & ? & ? & ?).
  all: apply elem_of_cons in Hin as [Heq | Hin]; [done |].
  all: by apply write_in_intLogf_events in Hin as (? & _ & ? & ? & ?).
Qed.

Lemma upToInfo_events_reach lvl arg0 args (w : World) name filt :
  log_Filters (w_log w) !! name = Some filt ->
  filt_Level filt <= lvl ->
  exists rec, EvLogWrite filt rec ∈ upToInfo_events lvl arg0 args w.
Proof.
  intros Hlook Hacc. unfold upToInfo_events.
  destruct arg0 as [first | first | n | b | text].
  1: by apply (intLogf_events_reach _ _ _ _ name).
  1: by apply (intLogc_events_reach _ _ _ name).
  all: match goal with
       | |- context [intLogf_events ?l ?f ?a ?w1] =>
           destruct (intLogf_events_reach l f a w1 name filt Hlook Hacc)
             as (rec & Hin)
       end.
  all: exists rec; by apply list_elem_of_further.
Qed.

Lemma up_to_info_method lvl (method : value -> list value -> M unit) :
  (lvl, method)
    ∈ [(FINEST, Finest); (FINE, Fine); (DEBUG, Debug); (TRACE, Trace);
       (INFO, Info)] ->
  method = upToInfo lvl.
Proof.
  intros Hin.
  repeat (apply elem_of_cons in Hin as [Heq | Hin];
          [by injection Heq as -> -> |]).
  by apply elem_of_nil in Hin.
Qed.

(** X5.  [Finest], [Fine], [Debug], [Trace] and [Info] log at the level of
    their name: every record they write carries that level and the message
    built from the arguments (the string itself or its formatting, the
    result of the closure, or the default-case format), and a filter of the
    map gets a record exactly when its threshold is at most that level. *)
Theorem convenience_methods_log_at_their_level
  (w : World) (lvl : Level) (method : value -> list value -> M unit)
  (arg0 : value) (args : list value) :
  (lvl, method)
    ∈ [(FINEST, Finest); (FINE, Fine); (DEBUG, Debug); (TRACE, Trace);
       (INFO, Info)] ->
  no_writer w ->
  exists w' new,
    method arg0 args w = Done tt w'
    /\ w_trace w' = w_trace w ++ new
    /\ (forall filt rec, EvLogWrite filt rec ∈ new ->
          rec_Level rec = lvl
          /\ rec_Message rec = upToInfo_message arg0 args
          /\ filt_Level filt <= lvl)
    /\ (forall name filt,
          log_Filters (w_log w) !! name = Some filt ->
          ((exists rec, EvLogWrite filt rec ∈ new) <-> filt_Level filt <= lvl)).
Proof.
  intros Hmethod Hnw. apply up_to_info_method in Hmethod as ->.
  destruct (upToInfo_run lvl arg0 args w Hnw) as (w' & Hrun & _ & Htr).
  exists w', (upToInfo_events lvl arg0 args w).
  split; [done |]. split; [done |]. split.
  - intros filt rec Hin.
    by apply write_in_upToInfo_events in Hin as (? & ? & ? & _).
  - intros name filt Hlook. split.
    + intros (rec & Hin).
      by apply write_in_upToInfo_events in Hin as (_ & _ & ? & _).
    + by apply (upToInfo_events_reach _ _ _ _ name).
Qed.

(** X6.  A skipped convenience call is free only for a string or a closure:
    when no filter accepts the level, [upToInfo] leaves no event for those,
    but for any other first argument it has already applied [fmt.Sprint]
    to it, once, before the admission check. *)
Theorem upToInfo_skipped_still_renders_default_case
  (w : World) (lvl : Level) (arg0 : value) (args : list value) :
  no_writer w ->
  none_accepts (log_Filters (w_log w)) lvl ->
  exists w',
    upToInfo lvl arg0 args w = Done tt w'
    /\ w_log w' = w_log w
    /\ w_trace w' = w_trace w ++ match arg0 with
                                 | VString _ | VFunc _ => []
                                 | _ => [EvSprint [arg0]]
                                 end.
Proof.
  intros Hnw Hnone.
  destruct (upToInfo_run lvl arg0 args w Hnw) as (w' & Hrun & Hlog & Htr).
  exists w'. split; [done |]. split; [done |]. rewrite Htr. f_equal.
  apply admitted_false in Hnone.
  unfold upToInfo_events, intLogf_events, intLogc_events.
  destruct arg0; try by rewrite Hnone.
  all: by replace (admitted lvl (add_events _ w)) with (admitted lvl w)
      by done; rewrite Hnone.
Qed.

(** ** The lock around a logging call *)

(** X7.  Every logging path gives back the read lock it takes, on the early
    return of a skipped call as on the full path: the mutex after the call
    is the mutex before it, however many other readers hold it. *)
Theorem logging_releases_the_read_lock (w : World) (lvl : Level) :
  no_writer w ->
  (forall source message, exists w',
      Log lvl source message w = Done tt w'
      /\ log_RWMutex (w_log w') = log_RWMutex (w_log w))
  /\ (forall arg0 args, exists w',
        upToInfo lvl arg0 args w = Done tt w'
        /\ log_RWMutex (w_log w') = log_RWMutex (w_log w))
  /\ (forall arg0 args, exists err w',
        overWarning lvl arg0 args w = Done err w'
        /\ log_RWMutex (w_log w') = log_RWMutex (w_log w)).
Proof.
  intros Hnw. split; [| split].
  - intros source message.
    destruct (Log_run lvl source message w Hnw) as (w' & Hrun & Hlog & _).
    exists w'. by rewrite Hlog.
  - intros arg0 args.
    destruct (upToInfo_run lvl arg0 args w Hnw) as (w' & Hrun & Hlog & _).
    exists w'. by rewrite Hlog.
  - intros arg0 args.
    destruct (overWarning_run lvl arg0 args w Hnw) as (w' & Hrun & Hlog & _).
    eexists _, w'. by rewrite Hlog.
Qed.

(** ** What logging never does *)

Lemma count_is_close_record_events lvl source message tr n fs :
  count is_close (record_events lvl source message tr n fs) = 0%nat.
Proof. by apply count_record_events. Qed.

Lemma count_is_close_intLogf_events lvl format args (w : World) :
  count is_close (intLogf_events lvl format args w) = 0%nat.
Proof.
  unfold intLogf_events. destruct (admitted lvl w); [| done].
  destruct (0 <? length args)%nat.
  - change (EvSprintf format args :: ?l) with ([EvSprintf format args] ++ l).
    by rewrite count_app, count_is_close_record_events.
  - apply count_is_close_record_events.
Qed.

Lemma count_is_close_intLogc_events lvl c (w : World) :
  count is_close (intLogc_events lvl c w) = 0%nat.
Proof.
  unfold intLogc_events. destruct (admitted lvl w); [| done].
  change (EvCall c :: ?l) with ([EvCall c] ++ l).
  by rewrite count_app, count_is_close_record_events.
Qed.

(** X8.  [Log], [Logf], [Logc] and [Warn]/[Error]/[Critical] write only
    through filters that are in the map and whose threshold is at most the
    level, and they never call [Close] on a sink. *)
Theorem logging_writes_only_through_accepting_filters_and_never_closes
  (w : World) (lvl : Level) :
  no_writer w ->
  (forall source message, exists w' new,
      Log lvl source message w = Done tt w'
      /\ w_trace w' = w_trace w ++ new
      /\ sound_writes (log_Filters (w_log w)) lvl new)
  /\ (forall format args, exists w' new,
        Logf lvl format args w = Done tt w'
        /\ w_trace w' = w_trace w ++ new
        /\ sound_writes (log_Filters (w_log w)) lvl new)
  /\ (forall c, exists w' new,
        Logc lvl c w = Done tt w'
        /\ w_trace w' = w_trace w ++ new
        /\ sound_writes (log_Filters (w_log w)) lvl new)
  /\ (forall arg0 args, exists err w' new,
        overWarning lvl arg0 args w = Done err w'
        /\ w_trace w' = w_trace w ++ new
        /\ sound_writes (log_Filters (w_log w)) lvl new).
Proof.
  intros Hnw. unfold sound_writes.
  split; [| split; [| split]].
  - intros source message.
    destruct (Log_run lvl source message w Hnw) as (w' & Hrun & _ & Htr).
    exists w', (Log_events lvl source message w).
    split; [done |]. split; [done |].
    unfold Log_events. destruct (admitted lvl w).
    + split; [| apply count_is_close_record_events].
      intros filt rec Hin.
      by apply write_in_record_events in Hin as (_ & ? & ?).
    + split; [| done]. intros filt rec Hin. by apply elem_of_nil in Hin.
  - intros format args.
    destruct (intLogf_run lvl format args w Hnw) as (w' & Hrun & _ & Htr).
    exists w', (intLogf_events lvl format args w).
    split; [done |]. split; [done |].
    split; [| apply count_is_close_intLogf_events].
    intros filt rec Hin.
    by apply write_in_intLogf_events in Hin as (_ & _ & _ & ? & ?).
  - intros c.
    destruct (intLogc_run lvl c w Hnw) as (w' & Hrun & _ & Htr).
    exists w', (intLogc_events lvl c w).
    split; [done |]. split; [done |].
    split; [| apply count_is_close_intLogc_events].
    intros filt rec Hin.
    by apply write_in_intLogc_events in Hin as (_ & _ & _ & ? & ?).
  - intros arg0 args.
    destruct (overWarning_run lvl arg0 args w Hnw) as (w' & Hrun & _ & Htr).
    eexists _, w', _. split; [done |]. split; [done |]. split.
    + intros filt rec Hin. apply elem_of_app in Hin as [Hin | Hin].
      * by apply formatting_no_write in Hin.
      * by apply write_in_intLogf_events in Hin as (_ & _ & _ & ? & ?).
    + rewrite count_app, count_is_close_intLogf_events.
      by destruct arg0.
Qed.

(** ** Counting the writes of [Log] *)

Lemma count_is_write_deliveries lvl rec fs :
  count is_write (deliveries lvl rec fs)
  = length (filter (fun nf => accepts lvl nf.2) fs).
Proof.
  unfold deliveries, count.
  induction (filter (fun nf => accepts lvl nf.2) fs) as [| nf l IH]; [done |].
  cbn. by rewrite IH.
Qed.

Lemma none_accepts_filter_nil (fs : Filters) lvl (l : list (string * Filter)) :
  l ≡ₚ map_to_list fs ->
  none_accepts fs lvl ->
  filter (fun nf => accepts lvl nf.2) l = [].
Proof.
  intros Hperm Hnone.
  destruct (filter (fun nf => accepts lvl nf.2) l) as [| [name filt] rest] eqn:Hf;
    [done |].
  assert (Hin : (name, filt) ∈ filter (fun nf => accepts lvl nf.2) l)
    by (rewrite Hf; apply list_elem_of_here).
  apply list_elem_of_filter in Hin as [Hacc Hin]. rewrite Hperm in Hin.
  apply elem_of_map_to_list in Hin. specialize (Hnone name filt Hin).
  unfold accepts in Hacc. cbn in Hacc. lia.
Qed.

(** X9.  One [Log] call makes one record, with the level, source and
    message it was given, and writes that same record once per entry of the
    map whose threshold is at most the level; when no entry accepts, it
    makes no record at all. *)
Theorem Log_writes_one_record_once_per_accepting_filter
  (w : World) (lvl : Level) (source message : string) :
  no_writer w ->
  exists w' new,
    Log lvl source message w = Done tt w'
    /\ w_trace w' = w_trace w ++ new
    /\ count is_write new
       = length (filter (fun nf => accepts lvl nf.2)
                   (map_to_list (log_Filters (w_log w))))
    /\ (forall filt rec, EvLogWrite filt rec ∈ new ->
          rec_Level rec = lvl /\ rec_Source rec = source
          /\ rec_Message rec = message
          /\ rec = record_of lvl source message (w_trace w))
    /\ records_made new
       = (if decide (count is_write new = 0%nat) then 0 else 1)%nat.
Proof.
  intros Hnw.
  destruct (Log_run lvl source message w Hnw) as (w' & Hrun & _ & Htr).
  exists w', (Log_events lvl source message w).
  split; [done |]. split; [done |].
  unfold Log_events. destruct (admitted lvl w) eqn:Hadm.
  - assert (Hcount : count is_write
              (record_events lvl source message (w_trace w) (S (w_iter w))
                 (log_Filters (w_log w)))
            = length (filter (fun nf => accepts lvl nf.2)
                        (map_to_list (log_Filters (w_log w))))).
    { unfold record_events. change (EvNow :: ?l) with ([EvNow] ++ l).
      rewrite count_app, count_is_write_deliveries.
      by rewrite (range_order_perm _ _). }
    split; [done |]. split.
    + intros filt rec Hin.
      by apply write_in_record_events in Hin as (-> & _ & _).
    + rewrite records_made_record_events, Hcount.
      apply admitted_true in Hadm as (name & filt & Hlook & Hacc).
      assert (Hin : (name, filt)
                ∈ filter (fun nf => accepts lvl nf.2)
                    (map_to_list (log_Filters (w_log w)))).
      { apply list_elem_of_filter. split; [done |].
        by apply elem_of_map_to_list. }
      destruct (filter _ _) as [| x l]; [by apply elem_of_nil in Hin | done].
  - apply admitted_false in Hadm.
    rewrite (none_accepts_filter_nil _ _ _ (reflexivity _) Hadm).
    split; [done |]. split; [| done].
    intros filt rec Hin. by apply elem_of_nil in Hin.
Qed.

(** ** Raising the level *)

Lemma filter_accepts_mono lvl lvl' (l : list (string * Filter)) :
  lvl <= lvl' ->
  (length (filter (fun nf => accepts lvl nf.2) l)
   <= length (filter (fun nf => accepts lvl' nf.2) l))%nat.
Proof.
  intros Hle. induction l as [| [name filt] l IH]; [done |].
  destruct (decide (accepts lvl filt)) as [Ha | Ha];
    destruct (decide (accepts lvl' filt)) as [Ha' | Ha'].
  - rewrite !filter_cons_True by done. cbn [length]. lia.
  - unfold accepts in *. lia.
  - rewrite filter_cons_False, filter_cons_True by done. cbn [length]. lia.
  - rewrite !filter_cons_False by done. lia.
Qed.

(** X10.  Severity is monotone: a filter that is written to at some level
    is written to at every higher level, and a dispatch at the higher level
    makes at least as many writes. *)
Theorem dispatch_is_monotone_in_the_level
  (w : World) (lvl lvl' : Level) (rec : LogRecord) :
  lvl <= lvl' ->
  exists w1 new1 w2 new2,
    dispatchLogsForLogRecord lvl rec w = Done tt w1
    /\ w_trace w1 = w_trace w ++ new1
    /\ dispatchLogsForLogRecord lvl' rec w = Done tt w2
    /\ w_trace w2 = w_trace w ++ new2
    /\ (forall filt, EvLogWrite filt rec ∈ new1 -> EvLogWrite filt rec ∈ new2)
    /\ (count is_write new1 <= count is_write new2)%nat.
Proof.
  intros Hle. rewrite !dispatchLogsForLogRecord_run.
  eexists _, _, _, _. split; [reflexivity |]. split; [reflexivity |].
  split; [reflexivity |]. split; [reflexivity |]. split.
  - intros filt. rewrite !elem_of_deliveries. unfold accepts.
    intros (_ & Hacc & Hname). split; [done |]. split; [lia | done].
  - rewrite !count_is_write_deliveries. by apply filter_accepts_mono.
Qed.

(** ** [AddFilter] followed by logging *)

Lemma Log_events_write_iff lvl source message (w : World) name filt :
  log_Filters (w_log w) !! name = Some filt ->
  EvLogWrite filt (record_of lvl source message (w_trace w))
    ∈ Log_events lvl source message w
  <-> filt_Level filt <= lvl.
Proof.
  intros Hlook. unfold Log_events. destruct (admitted lvl w) eqn:Hadm.
  - by apply (elem_of_record_events _ _ _ _ _ _ name).
  - apply admitted_false in Hadm. specialize (Hadm name filt Hlook).
    split; [by intros Hin%elem_of_nil | lia].
Qed.

(** X11.  A filter just added is in force: after [AddFilter name lvl writer],
    a [Log] at level [L] writes through the new filter exactly when
    [lvl <= L], whatever was under [name] before; the filters under other
    names are the ones that were there. *)
Theorem AddFilter_then_Log_reaches_the_new_filter
  (w : World) (name : string) (lvl : Level) (writer : LogWriter)
  (L : Level) (source message : string) :
  no_writer w ->
  exists w1 w2 new,
    AddFilter name lvl writer w = Done tt w1
    /\ Log L source message w1 = Done tt w2
    /\ w_trace w2 = w_trace w ++ new
    /\ (EvLogWrite {| filt_Level := lvl; filt_LogWriter := writer |}
          (record_of L source message (w_trace w)) ∈ new
        <-> lvl <= L)
    /\ (forall other, other <> name ->
          log_Filters (w_log w2) !! other = log_Filters (w_log w) !! other).
Proof.
  intros Hnw. rewrite AddFilter_run.
  set (w1 := set_Filters _ w).
  assert (Hnw1 : no_writer w1) by done.
  destruct (Log_run L source message w1 Hnw1) as (w2 & Hrun & Hlog & Htr).
  exists w1, w2, (Log_events L source message w1).
  split; [done |]. split; [done |]. split; [done |]. split.
  - apply (Log_events_write_iff L source message w1 name
             {| filt_Level := lvl; filt_LogWriter := writer |}).
    subst w1. cbn. apply lookup_insert_eq.
  - intros other Hne. rewrite Hlog. subst w1. cbn.
    by apply lookup_insert_ne.
Qed.

(** ** One filter *)

Lemma range_order_singleton (n : nat) (name : string) (filt : Filter) :
  range_order n {[name := filt]} = [(name, filt)].
Proof.
  apply Permutation_singleton_r. rewrite (range_order_perm n _).
  by rewrite map_to_list_singleton.
Qed.

Lemma Log_events_singleton lvl source message (w : World) name filt :
  log_Filters (w_log w) = {[name := filt]} ->
  Log_events lvl source message w
  = if decide (filt_Level filt <= lvl)
    then [EvNow; EvLogWrite filt (record_of lvl source message (w_trace w))]
    else [].
Proof.
  intros Hone. unfold Log_events, admitted, record_events, deliveries.
  rewrite Hone, !range_order_singleton. cbn [shouldSkip_loop].
  destruct (Z.geb_spec lvl (filt_Level filt)) as [Hge | Hlt].
  - rewrite decide_True by lia. cbn [negb].
    rewrite filter_cons_True by (unfold accepts; cbn; lia). done.
  - rewrite decide_False by lia. done.
Qed.


(** X13.  The logger [NewDefaultLogger] returns has the one filter "stdout"
    at the given level: a [Log] at level [L] writes one record to the
    console sink when that level is at most [L] and leaves no event
    otherwise, and the logger is unchanged. *)
Theorem NewDefaultLogger_logs_to_stdout_from_its_level
  (console : LogWriter) (lvl L : Level) (source message : string) :
  exists w',
    Log L source message (world_of (NewDefaultLogger console lvl))
    = Done tt w'
    /\ w_log w' = NewDefaultLogger console lvl
    /\ log_Filters (w_log w') !! "stdout"
       = Some {| filt_Level := lvl; filt_LogWriter := console |}
    /\ w_trace w'
       = if decide (lvl <= L)
         then [EvNow;
               EvLogWrite {| filt_Level := lvl; filt_LogWriter := console |}
                 (record_of L source message [])]
         else [].
Proof.
  assert (Hnw : no_writer (world_of (NewDefaultLogger console lvl))) by done.
  destruct (Log_run L source message _ Hnw) as (w' & Hrun & Hlog & Htr).
  exists w'. split; [done |]. split; [done |]. split.
  - rewrite Hlog. cbn. apply lookup_insert_eq.
  - rewrite Htr. cbn [world_of w_trace app].
    rewrite (Log_events_singleton L source message _ "stdout"
               {| filt_Level := lvl; filt_LogWriter := console |});
      [done |].
    cbn. apply insert_empty.
Qed.

End FurtherLoggerFacts.

Section AddFilterFacts.
Context {rt : Runtime}.

(** ** [AddFilter] and the sinks it drops *)


(** X16.  A filter that [AddFilter] replaces is lost to the logger: when the
    old filter sits under that one name only and differs from the new one,
    a later [Close] closes the new filter and every other one, but never
    the old one. *)
Theorem replaced_filter_is_never_closed
  (w : World) (name : string) (old : Filter) (lvl : Level)
  (writer : LogWriter) :
  idle w ->
  log_Filters (w_log w) !! name = Some old ->
  (forall other, log_Filters (w_log w) !! other = Some old -> other = name) ->
  old <> {| filt_Level := lvl; filt_LogWriter := writer |} ->
  exists w1 w2 closed,
    AddFilter name lvl writer w = Done tt w1
    /\ Close w1 = Done tt w2
    /\ w_trace w2 = w_trace w ++ closed
    /\ EvClose {| filt_Level := lvl; filt_LogWriter := writer |} ∈ closed
    /\ ~ (EvClose old ∈ closed)
    /\ (forall other filt, other <> name ->
          log_Filters (w_log w) !! other = Some filt ->
          EvClose filt ∈ closed)
    /\ length closed = size (log_Filters (w_log w)).
Proof.
  intros Hidle Hold Honly Hnew. rewrite AddFilter_run.
  set (new := {| filt_Level := lvl; filt_LogWriter := writer |}) in *.
  set (w1 := set_Filters _ w).
  assert (Hidle1 : idle w1) by done.
  destruct (Close_run w1 Hidle1) as (w2 & Hrun & _ & Htr).
  exists w1, w2, (EvClose <$> (range_order (w_iter w1)
                                 (log_Filters (w_log w1))).*2).
  split; [done |]. split; [done |]. split; [done |].
  assert (Hin : forall filt,
            EvClose filt ∈ EvClose <$> (range_order (w_iter w1)
                                          (log_Filters (w_log w1))).*2
            <-> exists k, <[name := new]> (log_Filters (w_log w)) !! k
                          = Some filt).
  { intros filt. rewrite list_elem_of_fmap. split.
    - intros (filt' & Heq & Hin). injection Heq as <-.
      apply list_elem_of_fmap in Hin as ([k f] & -> & Hin).
      exists k. by apply range_order_lookup in Hin.
    - intros (k & Hlook). exists filt. split; [done |].
      apply list_elem_of_fmap. exists (k, filt). split; [done |].
      by apply range_order_lookup. }
  split; [| split; [| split]].
  - apply Hin. exists name. apply lookup_insert_eq.
  - intros (k & Hlook)%Hin. destruct (decide (k = name)) as [-> | Hne].
    + rewrite lookup_insert_eq in Hlook. by injection Hlook as ->.
    + rewrite lookup_insert_ne in Hlook by done.
      by apply Honly in Hlook.
  - intros other filt Hne Hlook. apply Hin. exists other.
    by rewrite lookup_insert_ne.
  - rewrite !length_fmap, (range_order_perm _ _), length_map_to_list.
    subst w1. cbn. rewrite map_size_insert, Hold. done.
Qed.

End AddFilterFacts.

(** * Further facts at concrete inputs *)

Lemma Level_String_abbreviations_distinct_witness :
  0 <= FINEST < 8 /\ 0 <= CRITICAL < 8
  /\ exists s s',
       Level_String FINEST = Returns s
       /\ Level_String CRITICAL = Returns s'
       /\ String.length s = 4%nat
       /\ s <> "UNKNOWN"
       /\ (s = s' -> FINEST = CRITICAL).
Proof.
  assert (H0 : 0 <= FINEST < 8) by (unfold FINEST; lia).
  assert (H7 : 0 <= CRITICAL < 8) by (unfold CRITICAL; lia).
  split; [exact H0 |]. split; [exact H7 |].
  exact (Level_String_abbreviations_distinct FINEST CRITICAL H0 H7).
Defined.

Section FurtherExamples.
#[local] Existing Instance go_runtime.

(** ** The default case of the convenience methods on the [fmt] fragment *)

Lemma upToInfo_message_joined (arg0 : value) (args : list value) :
  isString arg0 = false ->
  (forall c, arg0 <> VFunc c) ->
  args = [] \/ has_percent (fmt_v arg0) = false ->
  upToInfo_message arg0 args = joined (arg0 :: args).
Proof.
  intros Hstr Hfunc Hplain.
  destruct args as [| a args].
  - destruct arg0 as [first | first | n | b | text];
      [done | by destruct (Hfunc first) | | |].
    all: cbn [upToInfo_message length Nat.ltb Nat.leb fmt_Sprint go_runtime
              go_Sprint doPrint strings_Repeat joined].
    all: by rewrite !append_nil_r.
  - destruct Hplain as [? | Hplain]; [done |].
    rewrite <- (default_case_joined_without_percent arg0 (a :: args))
      by done.
    by destruct arg0 as [first | first | n | b | text];
      [| destruct (Hfunc first) | | |].
Qed.

(** X14.  For a first argument that is neither a string nor a closure,
    [Finest] to [Info] do write every argument in its [%v] rendering,
    separated by single spaces, when there is no further argument or when
    the rendering of the first argument holds no ['%']: with no further
    argument the rendering is passed on as it is, ['%'] included. *)
Theorem upToInfo_default_case_writes_joined_rendering
  (w : World) (lvl : Level) (arg0 : value) (args : list value) :
  no_writer w ->
  isString arg0 = false ->
  (forall c, arg0 <> VFunc c) ->
  args = [] \/ has_percent (fmt_v arg0) = false ->
  exists w' new,
    upToInfo lvl arg0 args w = Done tt w'
    /\ w_trace w' = w_trace w ++ new
    /\ (forall filt rec, EvLogWrite filt rec ∈ new ->
          rec_Message rec = joined (arg0 :: args))
    /\ (some_accepts (log_Filters (w_log w)) lvl ->
        exists filt rec, EvLogWrite filt rec ∈ new).
Proof.
  intros Hnw Hstr Hfunc Hplain.
  destruct (upToInfo_run lvl arg0 args w Hnw) as (w' & Hrun & _ & Htr).
  exists w', (upToInfo_events lvl arg0 args w).
  split; [done |]. split; [done |]. split.
  - intros filt rec Hin.
    apply write_in_upToInfo_events in Hin as (_ & -> & _).
    by apply upToInfo_message_joined.
  - intros (name & filt & Hlook & Hacc). exists filt.
    by apply (upToInfo_events_reach _ _ _ _ name).
Qed.

Example Info_percent_alone_is_verbatim :
  messages_written
    <$> trace_of (Info (VError "100%") []) (world_of logger_ab)
  = Some ["100%"].
Proof. vm_compute. reflexivity. Qed.

Example Debug_default_case_joins :
  messages_written
    <$> trace_of (Debug (VInt 3) [VString "files"; VBool true])
          (world_of logger_ab)
  = Some ["3 files true"].
Proof. vm_compute. reflexivity. Qed.

Lemma upToInfo_default_case_writes_joined_rendering_witness :
  no_writer (world_of logger_ab)
  /\ isString (VError "100%") = false
  /\ (forall c, VError "100%" <> VFunc c)
  /\ exists w' new,
       upToInfo INFO (VError "100%") [] (world_of logger_ab) = Done tt w'
       /\ w_trace w' = w_trace (world_of logger_ab) ++ new
       /\ (forall filt rec, EvLogWrite filt rec ∈ new ->
             rec_Message rec = joined [VError "100%"]).
Proof.
  assert (Hnw : no_writer (world_of logger_ab)) by reflexivity.
  assert (Hstr : isString (VError "100%") = false) by reflexivity.
  assert (Hfunc : forall c, VError "100%" <> VFunc c) by (intros c; discriminate).
  split; [exact Hnw |]. split; [exact Hstr |]. split; [exact Hfunc |].
  destruct (upToInfo_default_case_writes_joined_rendering
              (world_of logger_ab) INFO (VError "100%") [] Hnw Hstr Hfunc
              (or_introl eq_refl))
    as (w' & new & Hrun & Htr & Hmsg & _).
  by exists w', new.
Defined.

(** ** [Close] twice, and reopening *)

Example Close_Close :
  trace_of (Close ;; Close) (world_of logger_ab)
  = Some [EvClose filter_a; EvClose filter_b].
Proof. vm_compute. reflexivity. Qed.

Lemma Close_twice_closes_once_witness :
  idle (world_of logger_ab)
  /\ exists w1 w2,
       Close (world_of logger_ab) = Done tt w1
       /\ Close w1 = Done tt w2
       /\ w_trace w2 = w_trace w1.
Proof.
  assert (Hidle : idle (world_of logger_ab)) by reflexivity.
  split; [exact Hidle |].
  destruct (Close_twice_closes_once (world_of logger_ab) Hidle)
    as (w1 & w2 & Hrun1 & Hrun2 & _ & _ & Htr).
  by exists w1, w2.
Defined.

Example Close_AddFilter_Log :
  trace_of (Close ;; (AddFilter "c" INFO 3%N ;;
                      Log WARNING "main.main:7" "disk full"))
    (world_of logger_ab)
  = Some [EvClose filter_a; EvClose filter_b; EvNow;
          EvLogWrite {| filt_Level := INFO; filt_LogWriter := 3%N |}
            {| rec_Level := WARNING; rec_Created := 1700000002;
               rec_Source := "main.main:7"; rec_Message := "disk full" |}].
Proof. vm_compute. reflexivity. Qed.


Lemma AddFilter_then_Log_reaches_the_new_filter_witness :
  no_writer (world_of logger_ab)
  /\ exists w1 w2 new,
       AddFilter "a" CRITICAL 3%N (world_of logger_ab) = Done tt w1
       /\ Log ERROR "main.main:7" "disk full" w1 = Done tt w2
       /\ w_trace w2 = w_trace (world_of logger_ab) ++ new
       /\ ~ (EvLogWrite {| filt_Level := CRITICAL; filt_LogWriter := 3%N |}
                (record_of ERROR "main.main:7" "disk full"
                   (w_trace (world_of logger_ab))) ∈ new)
       /\ log_Filters (w_log w2) !! "b" = Some filter_b.
Proof.
  assert (Hnw : no_writer (world_of logger_ab)) by reflexivity.
  split; [exact Hnw |].
  destruct (AddFilter_then_Log_reaches_the_new_filter (world_of logger_ab)
              "a" CRITICAL 3%N ERROR "main.main:7" "disk full" Hnw)
    as (w1 & w2 & new & Hrun1 & Hrun2 & Htr & Hiff & Hother).
  exists w1, w2, new. split; [exact Hrun1 |]. split; [exact Hrun2 |].
  split; [exact Htr |]. split.
  - intros Hin. apply Hiff in Hin. vm_compute in Hin. by apply Hin.
  - rewrite (Hother "b") by discriminate. reflexivity.
Defined.

(** ** Convenience methods, the lock, and what a call writes *)

Lemma convenience_methods_log_at_their_level_witness :
  (INFO, Info)
    ∈ [(FINEST, Finest); (FINE, Fine); (DEBUG, Debug); (TRACE, Trace);
       (INFO, Info)]
  /\ no_writer (world_of logger_ab)
  /\ exists w' new,
       Info (VString "%d files") [VInt 3] (world_of logger_ab) = Done tt w'
       /\ w_trace w' = w_trace (world_of logger_ab) ++ new
       /\ (forall filt rec, EvLogWrite filt rec ∈ new ->
             rec_Level rec = INFO /\ rec_Message rec = "3 files")
       /\ (exists rec, EvLogWrite filter_a rec ∈ new)
       /\ ~ (exists rec, EvLogWrite filter_b rec ∈ new).
Proof.
  assert (Hm : (INFO, Info)
               ∈ [(FINEST, Finest); (FINE, Fine); (DEBUG, Debug);
                  (TRACE, Trace); (INFO, Info)]).
  { do 4 apply list_elem_of_further. apply list_elem_of_here. }
  assert (Hnw : no_writer (world_of logger_ab)) by reflexivity.
  split; [exact Hm |]. split; [exact Hnw |].
  destruct (convenience_methods_log_at_their_level (world_of logger_ab)
              INFO Info (VString "%d files") [VInt 3] Hm Hnw)
    as (w' & new & Hrun & Htr & Hwrites & Hreach).
  exists w', new. split; [exact Hrun |]. split; [exact Htr |]. split.
  - intros filt rec Hin. destruct (Hwrites filt rec Hin) as (Hlvl & Hmsg & _).
    split; [exact Hlvl |]. rewrite Hmsg. reflexivity.
  - split.
    + apply (Hreach "a" filter_a eq_refl). vm_compute. discriminate.
    + intros Hin. apply (Hreach "b" filter_b eq_refl) in Hin.
      vm_compute in Hin. by apply Hin.
Defined.

Example Info_default_case_skipped :
  trace_of (Fine (VInt 3) [VString "files"]) (world_of logger_ab)
  = Some [EvSprint [VInt 3]]
  /\ trace_of (Fine (VString "%d files") [VInt 3]) (world_of logger_ab)
     = Some [].
Proof. split; vm_compute; reflexivity. Qed.

Lemma upToInfo_skipped_still_renders_default_case_witness :
  no_writer (world_of logger_ab)
  /\ none_accepts (log_Filters (w_log (world_of logger_ab))) FINEST
  /\ (exists w',
        upToInfo FINEST (VInt 3) [VString "files"] (world_of logger_ab)
        = Done tt w'
        /\ w_trace w' = w_trace (world_of logger_ab) ++ [EvSprint [VInt 3]])
  /\ (exists w',
        upToInfo FINEST (VString "%d files") [VInt 3] (world_of logger_ab)
        = Done tt w'
        /\ w_trace w' = w_trace (world_of logger_ab) ++ []).
Proof.
  assert (Hnw : no_writer (world_of logger_ab)) by reflexivity.
  split; [exact Hnw |]. split; [exact logger_ab_rejects_FINEST |]. split.
  - destruct (upToInfo_skipped_still_renders_default_case
                (world_of logger_ab) FINEST (VInt 3) [VString "files"]
                Hnw logger_ab_rejects_FINEST)
      as (w' & Hrun & _ & Htr).
    by exists w'.
  - destruct (upToInfo_skipped_still_renders_default_case
                (world_of logger_ab) FINEST (VString "%d files") [VInt 3]
                Hnw logger_ab_rejects_FINEST)
      as (w' & Hrun & _ & Htr).
    by exists w'.
Defined.

Lemma logging_releases_the_read_lock_witness :
  no_writer (world_of logger_ab_shared)
  /\ (exists w',
        Log CRITICAL "main.main:7" "disk full" (world_of logger_ab_shared)
        = Done tt w'
        /\ log_RWMutex (w_log w') = {| readers := 2; writer := false |})
  /\ (exists err w',
        overWarning FINEST (VString "disk full") []
          (world_of logger_ab_shared) = Done err w'
        /\ log_RWMutex (w_log w') = {| readers := 2; writer := false |}).
Proof.
  assert (Hnw : no_writer (world_of logger_ab_shared)) by reflexivity.
  split; [exact Hnw |]. split.
  - destruct (logging_releases_the_read_lock (world_of logger_ab_shared)
                CRITICAL Hnw) as (HLog & _ & _).
    exact (HLog "main.main:7" "disk full").
  - destruct (logging_releases_the_read_lock (world_of logger_ab_shared)
                FINEST Hnw) as (_ & _ & Hover).
    exact (Hover (VString "disk full") []).
Defined.

Lemma logging_writes_only_through_accepting_filters_and_never_closes_witness :
  no_writer (world_of logger_ab)
  /\ exists err w' new,
       overWarning WARNING (VString "disk full") [] (world_of logger_ab)
       = Done err w'
       /\ w_trace w' = w_trace (world_of logger_ab) ++ new
       /\ sound_writes (log_Filters logger_ab) WARNING new.
Proof.
  assert (Hnw : no_writer (world_of logger_ab)) by reflexivity.
  split; [exact Hnw |].
  destruct (logging_writes_only_through_accepting_filters_and_never_closes
              (world_of logger_ab) WARNING Hnw) as (_ & _ & _ & Hover).
  exact (Hover (VString "disk full") []).
Defined.

Lemma Log_writes_one_record_once_per_accepting_filter_witness :
  no_writer (world_of logger_ab)
  /\ exists w' new,
       Log CRITICAL "main.main:7" "disk full" (world_of logger_ab)
       = Done tt w'
       /\ w_trace w' = w_trace (world_of logger_ab) ++ new
       /\ count is_write new = 2%nat
       /\ records_made new = 1%nat.
Proof.
  assert (Hnw : no_writer (world_of logger_ab)) by reflexivity.
  split; [exact Hnw |].
  destruct (Log_writes_one_record_once_per_accepting_filter
              (world_of logger_ab) CRITICAL "main.main:7" "disk full" Hnw)
    as (w' & new & Hrun & Htr & Hcount & _ & Hrec).
  exists w', new. split; [exact Hrun |]. split; [exact Htr |].
  assert (H2 : count is_write new = 2%nat) by (rewrite Hcount; reflexivity).
  split; [exact H2 |]. rewrite Hrec, H2. reflexivity.
Defined.

Lemma dispatch_is_monotone_in_the_level_witness :
  WARNING <= CRITICAL
  /\ exists w1 new1 w2 new2,
       dispatchLogsForLogRecord WARNING sample_record (world_of logger_ab)
       = Done tt w1
       /\ w_trace w1 = w_trace (world_of logger_ab) ++ new1
       /\ dispatchLogsForLogRecord CRITICAL sample_record (world_of logger_ab)
          = Done tt w2
       /\ w_trace w2 = w_trace (world_of logger_ab) ++ new2
       /\ (count is_write new1 <= count is_write new2)%nat.
Proof.
  assert (Hle : WARNING <= CRITICAL) by (vm_compute; discriminate).
  split; [exact Hle |].
  destruct (dispatch_is_monotone_in_the_level (world_of logger_ab)
              WARNING CRITICAL sample_record Hle)
    as (w1 & new1 & w2 & new2 & Hrun1 & Htr1 & Hrun2 & Htr2 & _ & Hcount).
  by exists w1, new1, w2, new2.
Defined.

Example default_logger_at_and_below_its_level :
  trace_of (Log INFO "main.main:7" "started")
    (world_of (NewDefaultLogger 9%N INFO))
  = Some [EvNow;
          EvLogWrite {| filt_Level := INFO; filt_LogWriter := 9%N |}
            {| rec_Level := INFO; rec_Created := 1700000000;
               rec_Source := "main.main:7"; rec_Message := "started" |}]
  /\ trace_of (Log TRACE "main.main:7" "started")
       (world_of (NewDefaultLogger 9%N INFO))
     = Some [].
Proof. split; vm_compute; reflexivity. Qed.

Example replaced_sink_is_left_open :
  trace_of (AddFilter "a" INFO 3%N ;; Close) (world_of logger_ab)
  = Some [EvClose {| filt_Level := INFO; filt_LogWriter := 3%N |};
          EvClose filter_b].
Proof. vm_compute. reflexivity. Qed.


Lemma replaced_filter_is_never_closed_witness :
  idle (world_of logger_ab)
  /\ log_Filters (w_log (world_of logger_ab)) !! "a" = Some filter_a
  /\ filter_a <> {| filt_Level := INFO; filt_LogWriter := 3%N |}
  /\ exists w1 w2 closed,
       AddFilter "a" INFO 3%N (world_of logger_ab) = Done tt w1
       /\ Close w1 = Done tt w2
       /\ w_trace w2 = w_trace (world_of logger_ab) ++ closed
       /\ ~ (EvClose filter_a ∈ closed)
       /\ EvClose filter_b ∈ closed.
Proof.
  assert (Hidle : idle (world_of logger_ab)) by reflexivity.
  assert (Ha : log_Filters (w_log (world_of logger_ab)) !! "a" = Some filter_a)
    by reflexivity.
  assert (Hnew : filter_a <> {| filt_Level := INFO; filt_LogWriter := 3%N |})
    by discriminate.
  assert (Honly : forall other,
            log_Filters (w_log (world_of logger_ab)) !! other = Some filter_a ->
            other = "a").
  { intros other Hlook. apply elem_of_map_to_list in Hlook.
    vm_compute map_to_list in Hlook.
    apply elem_of_cons in Hlook as [Heq | Hlook]; [by injection Heq |].
    apply elem_of_cons in Hlook as [Heq | Hlook]; [discriminate |].
    by apply elem_of_nil in Hlook. }
  split; [exact Hidle |]. split; [exact Ha |]. split; [exact Hnew |].
  destruct (replaced_filter_is_never_closed (world_of logger_ab) "a" filter_a
              INFO 3%N Hidle Ha Honly Hnew)
    as (w1 & w2 & closed & Hrun1 & Hrun2 & Htr & _ & Hold & Hothers & _).
  exists w1, w2, closed. split; [exact Hrun1 |]. split; [exact Hrun2 |].
  split; [exact Htr |]. split; [exact Hold |].
  apply (Hothers "b" filter_b); [discriminate | reflexivity].
Defined.

End FurtherExamples.
